(** * Task queue with priorities and resource limits

    A shallow embedding of [queue_task.py]: the two dataclasses [Resources]
    and [Task], and the three interchangeable queue classes
    [TaskQueue_list], [TaskQueue_dict_of_lists] and [TaskQueue_dict_of_dicts],
    followed by the properties the specification states about them.

    Python [int] is modelled by [Z], [str] by [string].  A method that
    mutates [self.storage] takes the storage and returns the new one; a
    method that can raise returns in the exception monad [exc]. *)

From stdpp Require Import base list sorting gmap strings.
From Stdlib Require Import ZArith Lia.

(** ** Exceptions *)

Inductive exception := ValueError | KeyError.

Inductive exc (A : Type) : Type :=
| Ok (a : A)
| Raise (e : exception).
Arguments Ok {A} a.
Arguments Raise {A} e.

Global Instance exc_ret : MRet exc := λ A a, Ok a.

Global Instance exc_bind : MBind exc := λ A B f m,
  match m with
  | Ok a => f a
  | Raise e => Raise e
  end.

(** ** The dataclasses *)

Record Resources := {
  ram : Z;
  cpu_cores : Z;
  gpu_count : Z
}.

(** [Resources.__le__]: the [<=] operator, true if all the resources satisfy. *)
Definition Resources_le (self other : Resources) : bool :=
  (ram self <=? ram other)%Z &&
  (cpu_cores self <=? cpu_cores other)%Z &&
  (gpu_count self <=? gpu_count other)%Z.

Record Task := {
  id : Z;
  priority : Z;
  resources : Resources;
  content : string;
  result : string
}.

(** The generated [__eq__] of a dataclass compares all fields. *)
Global Instance Resources_eq_dec : EqDecision Resources.
Proof. solve_decision. Defined.

Global Instance Task_eq_dec : EqDecision Task.
Proof. solve_decision. Defined.

(** ** Builtins used by the queues *)

(** [list.remove(x)]: drops the first item equal to [x]; [ValueError] when
    there is none. *)
Fixpoint list_remove {A} `{EqDecision A} (x : A) (l : list A) : exc (list A) :=
  match l with
  | [] => Raise ValueError
  | y :: l' =>
      if decide (y = x) then Ok l'
      else l'' ← list_remove x l'; Ok (y :: l'')
  end.

(** [sorted(l, key=...)] and [l.sort(key=...)]: a stable sort, ascending in
    the integer key.  [insort x l] puts [x] in front of the first item of
    [l] whose key is not smaller, so an item keeps its place before the
    later items of the same key. *)
Section py_sorted.
Context {A : Type} (key : A → Z).

Fixpoint insort (x : A) (l : list A) : list A :=
  match l with
  | [] => [x]
  | y :: l' => if (key x <=? key y)%Z then x :: l else y :: insort x l'
  end.

Definition sorted (l : list A) : list A := foldr insort [] l.
End py_sorted.

(** A [dict] whose iteration order is observed: the items in insertion
    order.  Assigning to a present key keeps its position, a new key goes
    to the end; [del] raises [KeyError] on a missing key. *)
Section odict.
Context {V : Type}.

Fixpoint odict_setitem (k : Z) (v : V) (d : list (Z * V)) : list (Z * V) :=
  match d with
  | [] => [(k, v)]
  | (k', v') :: d' =>
      if decide (k' = k) then (k, v) :: d'
      else (k', v') :: odict_setitem k v d'
  end.

Fixpoint odict_delitem (k : Z) (d : list (Z * V)) : exc (list (Z * V)) :=
  match d with
  | [] => Raise KeyError
  | (k', v') :: d' =>
      if decide (k' = k) then Ok d'
      else d'' ← odict_delitem k d'; Ok ((k', v') :: d'')
  end.
End odict.

(** [x.resources <= available_resources], as a predicate on tasks. *)
Definition fits (available_resources : Resources) (x : Task) : bool :=
  Resources_le (resources x) available_resources.

(** The body of [for curtask in bucket: if curtask.resources <= available:
    ... return curtask]: the first task of the bucket that fits. *)
Fixpoint first_fit (available_resources : Resources) (bucket : list Task)
  : option Task :=
  match bucket with
  | [] => None
  | curtask :: rest =>
      if fits available_resources curtask then Some curtask
      else first_fit available_resources rest
  end.

(** The same loop over [bucket.items()] of a dict bucket. *)
Fixpoint first_fit_item (available_resources : Resources)
    (items : list (Z * Task)) : option (Z * Task) :=
  match items with
  | [] => None
  | (i, curtask) :: rest =>
      if fits available_resources curtask then Some (i, curtask)
      else first_fit_item available_resources rest
  end.

(** ** I. All the tasks are stored in a single list *)

Module TaskQueue_list.
Abbreviation storage := (list Task).

Definition init : storage := [].

Definition add_task (self : storage) (new_task : Task) : exc storage :=
  Ok (self ++ [new_task]).

Definition get_task (self : storage) (available_resources : Resources)
  : exc (option Task * storage) :=
  let filtered_tasks :=
    sorted priority (filter (λ x, fits available_resources x) self) in
  match filtered_tasks with
  | task_to_return :: _ =>
      self' ← list_remove task_to_return self;
      Ok (Some task_to_return, self')
  | [] => Ok (None, self)
  end.

Definition resident (self : storage) : list Task := self.
End TaskQueue_list.

(** ** II. Tasks split into groups by priority key, each group a list *)

Module TaskQueue_dict_of_lists.
Abbreviation storage := (gmap Z (list Task)).

Definition init : storage := ∅.

(** [self.storage[k]] on a [defaultdict(list)]: a missing key is
    created with an empty list. *)
Definition getitem (self : storage) (k : Z) : list Task * storage :=
  match self !! k with
  | Some bucket => (bucket, self)
  | None => ([], <[k := []]> self)
  end.

Definition keys (self : storage) : list Z := (map_to_list self).*1.

Definition add_task (self : storage) (new_task : Task) : exc storage :=
  let '(bucket, self) := getitem self (priority new_task) in
  Ok (<[priority new_task := bucket ++ [new_task]]> self).

Fixpoint get_task_loop (self : storage) (available_resources : Resources)
    (priorities : list Z) : exc (option Task * storage) :=
  match priorities with
  | [] => Ok (None, self)
  | priority :: rest =>
      let '(bucket, self) := getitem self priority in
      match first_fit available_resources bucket with
      | Some curtask =>
          let '(bucket, self) := getitem self priority in
          bucket' ← list_remove curtask bucket;
          Ok (Some curtask, <[priority := bucket']> self)
      | None => get_task_loop self available_resources rest
      end
  end.

Definition get_task (self : storage) (available_resources : Resources)
  : exc (option Task * storage) :=
  get_task_loop self available_resources (sorted (λ k, k) (keys self)).

Definition bucket (self : storage) (p : Z) : list Task :=
  default [] (self !! p).

Definition resident (self : storage) : list Task :=
  mjoin (map_to_list self).*2.
End TaskQueue_dict_of_lists.

(** ** III. Tasks split into groups by priority key, each group a dict *)

Module TaskQueue_dict_of_dicts.
Abbreviation storage := (gmap Z (list (Z * Task))).

Definition init : storage := ∅.

(** [self.storage[k]] on a [defaultdict(dict)]. *)
Definition getitem (self : storage) (k : Z) : list (Z * Task) * storage :=
  match self !! k with
  | Some bucket => (bucket, self)
  | None => ([], <[k := []]> self)
  end.

Definition keys (self : storage) : list Z := (map_to_list self).*1.

Definition add_task (self : storage) (new_task : Task) : exc storage :=
  let '(bucket, self) := getitem self (priority new_task) in
  Ok (<[priority new_task := odict_setitem (id new_task) new_task bucket]> self).

Fixpoint get_task_loop (self : storage) (available_resources : Resources)
    (priorities : list Z) : exc (option Task * storage) :=
  match priorities with
  | [] => Ok (None, self)
  | priority :: rest =>
      let '(bucket, self) := getitem self priority in
      match first_fit_item available_resources bucket with
      | Some (i, curtask) =>
          let '(bucket, self) := getitem self priority in
          bucket' ← odict_delitem i bucket;
          Ok (Some curtask, <[priority := bucket']> self)
      | None => get_task_loop self available_resources rest
      end
  end.

Definition get_task (self : storage) (available_resources : Resources)
  : exc (option Task * storage) :=
  get_task_loop self available_resources (sorted (λ k, k) (keys self)).

Definition bucket (self : storage) (p : Z) : list (Z * Task) :=
  default [] (self !! p).

Definition resident (self : storage) : list Task :=
  (mjoin (map_to_list self).*2).*2.
End TaskQueue_dict_of_dicts.

(** ** The shared contract

    The three classes offer the same two methods; [resident] lists the
    tasks a storage holds (in no particular order for the two dicts). *)

Record TaskQueue := {
  storage : Type;
  init : storage;
  add_task : storage → Task → exc storage;
  get_task : storage → Resources → exc (option Task * storage);
  resident : storage → list Task
}.

Definition Q_list : TaskQueue := {|
  init := TaskQueue_list.init;
  add_task := TaskQueue_list.add_task;
  get_task := TaskQueue_list.get_task;
  resident := TaskQueue_list.resident
|}.

Definition Q_dict_of_lists : TaskQueue := {|
  init := TaskQueue_dict_of_lists.init;
  add_task := TaskQueue_dict_of_lists.add_task;
  get_task := TaskQueue_dict_of_lists.get_task;
  resident := TaskQueue_dict_of_lists.resident
|}.

Definition Q_dict_of_dicts : TaskQueue := {|
  init := TaskQueue_dict_of_dicts.init;
  add_task := TaskQueue_dict_of_dicts.add_task;
  get_task := TaskQueue_dict_of_dicts.get_task;
  resident := TaskQueue_dict_of_dicts.resident
|}.

(** A caller's sequence of calls, and the results of its [get_task] calls
    in order. *)
Inductive call :=
| Submit (t : Task)
| Withdraw (r : Resources).

Fixpoint run (Q : TaskQueue) (s : storage Q) (calls : list call)
  : exc (list (option Task) * storage Q) :=
  match calls with
  | [] => Ok ([], s)
  | Submit t :: calls' =>
      s' ← add_task Q s t; run Q s' calls'
  | Withdraw r :: calls' =>
      '(res, s') ← get_task Q s r;
      '(trace, s'') ← run Q s' calls';
      Ok (res :: trace, s'')
  end.

(** The tasks a sequence of calls submits, and the tasks a trace returned. *)
Definition submitted (calls : list call) : list Task :=
  omap (λ c, match c with Submit t => Some t | Withdraw _ => None end) calls.

Definition returned (trace : list (option Task)) : list Task :=
  omap (λ r, r) trace.

(** What a withdrawal is to pick from the tasks [l], listed in submission
    order: the task [x], found between [l1] and [l2], fits; the fitting
    tasks before it have a strictly larger priority value, the fitting
    tasks after it one at least as large. *)
Definition selects (available_resources : Resources) (l : list Task)
    (x : Task) (l1 l2 : list Task) : Prop :=
  l = l1 ++ x :: l2 ∧
  fits available_resources x = true ∧
  (∀ y, y ∈ l1 → fits available_resources y = true → (priority x < priority y)%Z) ∧
  (∀ y, y ∈ l2 → fits available_resources y = true → (priority x ≤ priority y)%Z).

(** Two bucketed storages hold the same tasks in the same buckets; they
    may differ in which empty buckets are present. *)
Definition same_buckets {B : Type} (m1 m2 : gmap Z (list B)) : Prop :=
  ∀ p, default [] (m1 !! p) = default [] (m2 !! p).

(** The shape [add_task] and [get_task] keep a dict of dicts in: a bucket
    has no key twice, and each task sits under its own id. *)
Definition DD_wf (m : gmap Z (list (Z * Task))) : Prop :=
  ∀ p d, m !! p = Some d → NoDup d.*1 ∧ ∀ i x, (i, x) ∈ d → i = id x.

(** Sample values for the scenarios: a vector with only [ram] set, and a
    task with empty [content] and [result]. *)
Definition ram_only (n : Z) : Resources :=
  {| ram := n; cpu_cores := 0; gpu_count := 0 |}.

Definition sample_task (i p : Z) (r : Resources) : Task :=
  {| id := i; priority := p; resources := r;
     content := EmptyString; result := EmptyString |}.

(** [get_task] finds nothing and leaves the storage, hence the ids held,
    as they were. *)
Definition absent_and_unchanged (Q : TaskQueue) (s : storage Q)
    (available_resources : Resources) : Prop :=
  ∃ s', get_task Q s available_resources = Ok (None, s') ∧
    s' = s ∧ id <$> resident Q s' ≡ₚ id <$> resident Q s.

Definition no_match_non_destructive_for (Q : TaskQueue) : Prop :=
  ∀ (s : storage Q) (available_resources : Resources),
    (∀ y, y ∈ resident Q s → fits available_resources y = false) →
    absent_and_unchanged Q s available_resources.

(** [add_task] raises when the id of the new task is that of a task held. *)
Definition rejects_collisions (Q : TaskQueue) : Prop :=
  ∀ (s : storage Q) (t : Task),
    id t ∈ id <$> resident Q s → ∃ e, add_task Q s t = Raise e.

(** What [TaskQueue_dict_of_dicts.add_task] does with a task [t] whose id
    is held: the task [old] under that id in the bucket of [t]'s priority
    is replaced by [t]; when that bucket has no such key, [t] is added and
    the task of the same id in another bucket stays. *)
Definition DD_overwrites_or_duplicates (m m' : gmap Z (list (Z * Task)))
    (t : Task) : Prop :=
  (∃ old rest,
     (id t, old) ∈ TaskQueue_dict_of_dicts.bucket m (priority t) ∧
     TaskQueue_dict_of_dicts.resident m ≡ₚ old :: rest ∧
     TaskQueue_dict_of_dicts.resident m' ≡ₚ t :: rest) ∨
  ((id t ∉ (TaskQueue_dict_of_dicts.bucket m (priority t)).*1) ∧
   TaskQueue_dict_of_dicts.resident m' ≡ₚ
     TaskQueue_dict_of_dicts.resident m ++ [t]).

(** Exactly-once withdrawal over a sequence of calls on a fresh storage:
    the whole sequence runs and returns no id twice; and at each
    [get_task] of the sequence that returns a task, that task's id was
    submitted before the call, was not returned before it, was held when
    the call was made and is no longer held when it returns. *)
Definition exactly_once (Q : TaskQueue) (calls : list call) : Prop :=
  (∃ trace s,
     run Q (init Q) calls = Ok (trace, s) ∧ NoDup (id <$> returned trace)) ∧
  ∀ before r after,
    calls = before ++ Withdraw r :: after →
    ∃ trace s res s',
      run Q (init Q) before = Ok (trace, s) ∧
      get_task Q s r = Ok (res, s') ∧
      ∀ x, res = Some x →
        id x ∈ id <$> submitted before ∧
        (id x ∉ id <$> returned trace) ∧
        id x ∈ id <$> resident Q s ∧
        (id x ∉ id <$> resident Q s').

(** The scenario of the specification, for a cost and availability [r]:
    three submissions, then four withdrawals. *)
Definition scenario_calls (r : Resources) : list call :=
  [Submit (sample_task 1 2 r); Submit (sample_task 2 1 r);
   Submit (sample_task 3 2 r);
   Withdraw r; Withdraw r; Withdraw r; Withdraw r].

(** How a dict of lists, and a dict of dicts, represents the tasks [l]
    held by the single list: each bucket has the tasks of its priority, in
    the order of [l]. *)
Definition DL_repr (l : list Task) (m : gmap Z (list Task)) : Prop :=
  ∀ p, TaskQueue_dict_of_lists.bucket m p = filter (λ t, priority t = p) l.

Definition DD_repr (l : list Task) (m : gmap Z (list (Z * Task))) : Prop :=
  ∀ p, TaskQueue_dict_of_dicts.bucket m p =
       (λ t, (id t, t)) <$> filter (λ t, priority t = p) l.

(** The tasks [ts] are submitted in this order to a fresh storage, then
    [get_task] is called once: the call returns; it returns [None] only
    when no task fits; a task it returns fits, has the least priority value
    among the tasks that fit, and is the earliest submitted among the
    fitting tasks of that priority. *)
Definition selection_correct (Q : TaskQueue) (ts : list Task)
    (available_resources : Resources) : Prop :=
  ∃ s res s',
    run Q (init Q) (Submit <$> ts) = Ok ([], s) ∧
    get_task Q s available_resources = Ok (res, s') ∧
    match res with
    | None => ∀ y, y ∈ ts → fits available_resources y = false
    | Some x =>
        fits available_resources x = true ∧
        (∀ y, y ∈ ts → fits available_resources y = true →
              (priority x ≤ priority y)%Z) ∧
        ∃ i, ts !! i = Some x ∧
          ∀ j y, ts !! j = Some y → fits available_resources y = true →
                 priority y = priority x → i ≤ j
    end.

(** The ids a trace returned, call by call ([None] for a call that
    returned no task). *)
Definition returned_ids (trace : list (option Task)) : list (option Z) :=
  (λ res : option Task, id <$> res) <$> trace.

(** From the storages [s1] and [s2] of one class, a sequence of calls
    returns the same results and leaves the same tasks held. *)
Definition same_behaviour (Q : TaskQueue) (s1 s2 : storage Q)
    (calls : list call) : Prop :=
  ∃ trace s1' s2',
    run Q s1 calls = Ok (trace, s1') ∧
    run Q s2 calls = Ok (trace, s2') ∧
    resident Q s1' ≡ₚ resident Q s2'.

(** ** The task generator of [performance_test.py]

    The callables of a resource spec, and [priorityfnc], take no argument
    and may draw random numbers: a callable is a function of the state [W]
    it reads and advances.  [genid = itertools.count()] is the module-wide
    counter all generators share; a generator's state is the pair of that
    counter and [W]. *)
Section task_generator.
Context {W : Type}.

(** [spec[k]()]: [KeyError] when the spec has no key [k]. *)
Definition call_key (spec : gmap string (W → Z * W)) (k : string) (w : W)
  : exc (Z * W) :=
  match spec !! k with
  | Some f => Ok (f w)
  | None => Raise KeyError
  end.

Definition get_resources (spec : gmap string (W → Z * W)) (w : W)
  : exc (Resources * W) :=
  '(r, w) ← call_key spec "ram" w;
  '(c, w) ← call_key spec "cpu" w;
  '(g, w) ← call_key spec "gpu" w;
  Ok ({| ram := r; cpu_cores := c; gpu_count := g |}, w).

(** [next(gen)] for [gen = task_generator(resoure_spec, priorityfnc)]: one
    turn of its [while True] loop, up to the [yield]. *)
Definition next_task (resoure_spec : gmap string (W → Z * W))
    (priorityfnc : W → Z * W) (st : Z * W) : exc (Task * (Z * W)) :=
  let '(genid, w) := st in
  let '(p, w) := priorityfnc w in
  '(res, w) ← get_resources resoure_spec w;
  Ok ({| id := genid; priority := p; resources := res;
         content := EmptyString; result := EmptyString |},
      ((genid + 1)%Z, w)).

(** [n] successive [next(gen)], as in [[next(gen) for i in range(n)]]. *)
Fixpoint take_tasks (resoure_spec : gmap string (W → Z * W))
    (priorityfnc : W → Z * W) (n : nat) (st : Z * W)
  : exc (list Task * (Z * W)) :=
  match n with
  | O => Ok ([], st)
  | S n' =>
      '(t, st) ← next_task resoure_spec priorityfnc st;
      '(ts, st) ← take_tasks resoure_spec priorityfnc n' st;
      Ok (t :: ts, st)
  end.

(** [list(itertools.islice(gen, 0, ntasks))]: [islice] raises [ValueError]
    unless [0 <= ntasks <= sys.maxsize]. *)
Definition islice_tasks (maxsize : Z) (resoure_spec : gmap string (W → Z * W))
    (priorityfnc : W → Z * W) (ntasks : Z) (st : Z * W)
  : exc (list Task * (Z * W)) :=
  if decide (0 ≤ ntasks ≤ maxsize)%Z
  then take_tasks resoure_spec priorityfnc (Z.to_nat ntasks) st
  else Raise ValueError.

(** [[get_resources(spec) for i in range(n)]]. *)
Fixpoint take_resources (spec : gmap string (W → Z * W)) (n : nat) (w : W)
  : exc (list Resources * W) :=
  match n with
  | O => Ok ([], w)
  | S n' =>
      '(r, w) ← get_resources spec w;
      '(rs, w) ← take_resources spec n' w;
      Ok (r :: rs, w)
  end.

(** [lambda: v]. *)
Definition const_fn (v : Z) : W → Z * W := λ w, (v, w).

Definition big_resoure_spec : gmap string (W → Z * W) :=
  {[ "ram" := const_fn 500; "cpu" := const_fn 10; "gpu" := const_fn 10 ]}.

Definition small_resoure_spec : gmap string (W → Z * W) :=
  {[ "ram" := const_fn 5; "cpu" := const_fn 1; "gpu" := const_fn 1 ]}.

(** The data [testcase_appropriate_task_at_the_end] prepares before its
    timing loop: [ntasks] big tasks followed by one small task, and the
    consumers' resources. *)
Definition worst_case_setup (maxsize : Z) (ntasks nattempts : Z) (st : Z * W)
  : exc (list Task * list Resources * (Z * W)) :=
  '(tasklist, st) ← islice_tasks maxsize big_resoure_spec (const_fn 2) ntasks st;
  let '(genid, w) := st in
  '(consres_initial_list, w) ←
    take_resources small_resoure_spec (Z.to_nat (nattempts * 2)) w;
  '(t, st) ← next_task small_resoure_spec (const_fn 2) (genid, w);
  Ok (tasklist ++ [t], consres_initial_list, st).
End task_generator.

(** One attempt of a test case on the class [Q]: a new queue is filled
    with [tasklist], then [get_task] is called once. *)
Definition attempt (Q : TaskQueue) (tasklist : list Task) (r : Resources)
  : exc (list (option Task) * storage Q) :=
  run Q (init Q) ((Submit <$> tasklist) ++ [Withdraw r]).

(** [get_task] returns; the task it returns is held and fits; it returns
    [None] only when no task held fits. *)
Definition work_conserving (Q : TaskQueue) : Prop :=
  ∀ (s : storage Q) (available_resources : Resources),
    ∃ res s', get_task Q s available_resources = Ok (res, s') ∧
      match res with
      | None => ∀ y, y ∈ resident Q s → fits available_resources y = false
      | Some x => x ∈ resident Q s ∧ fits available_resources x = true
      end.

(** The priorities of the tasks a sequence of calls submits. *)
Definition submitted_priorities (calls : list call) : gset Z :=
  list_to_set (priority <$> submitted calls).

(** Every task of a bucket has the priority the bucket is keyed by. *)
Definition DL_by_priority (m : gmap Z (list Task)) : Prop :=
  ∀ p t, t ∈ TaskQueue_dict_of_lists.bucket m p → priority t = p.

Definition DD_by_priority (m : gmap Z (list (Z * Task))) : Prop :=
  ∀ p i t, (i, t) ∈ TaskQueue_dict_of_dicts.bucket m p → priority t = p.

(** Along a sequence of calls on a fresh storage no task is lost and none
    is made up: the tasks submitted are the tasks returned together with
    the tasks still held. *)
Definition conserves (Q : TaskQueue) (calls : list call) : Prop :=
  ∃ trace s,
    run Q (init Q) calls = Ok (trace, s) ∧
    submitted calls ≡ₚ returned trace ++ resident Q s ∧
    length (submitted calls) = length (returned trace) + length (resident Q s).

(** The tasks [ts] are submitted to a fresh storage and [get_task] is then
    called with the same [available_resources] until it returns [None]:
    the calls return the candidates of the first call, that is the tasks
    that fit in the order of a stable sort by priority, one by one; the
    tasks that do not fit stay. *)
Definition drains_in_priority_order (Q : TaskQueue) (ts : list Task)
    (available_resources : Resources) : Prop :=
  let candidates :=
    sorted priority (filter (λ t, fits available_resources t) ts) in
  ∃ s,
    run Q (init Q)
      ((Submit <$> ts) ++
       replicate (S (length candidates)) (Withdraw available_resources))
    = Ok ((Some <$> candidates) ++ [None], s) ∧
    resident Q s ≡ₚ filter (λ t, ¬ fits available_resources t) ts.

(** In the storage a sequence of calls leaves, [get_task] with the
    resources [r'] does at least as well as with [r]: when a task is
    returned for [r], a task of the same or a smaller priority value is
    returned for [r']. *)
Definition more_is_no_worse (Q : TaskQueue) (calls : list call)
    (r r' : Resources) : Prop :=
  ∃ trace s res res' s1 s2,
    run Q (init Q) calls = Ok (trace, s) ∧
    get_task Q s r = Ok (res, s1) ∧
    get_task Q s r' = Ok (res', s2) ∧
    ∀ x, res = Some x → ∃ x', res' = Some x' ∧ (priority x' ≤ priority x)%Z.

(** A resource spec has the three keys [get_resources] reads. *)
Definition has_resource_keys {W : Type} (spec : gmap string (W → Z * W)) : Prop :=
  is_Some (spec !! "ram") ∧ is_Some (spec !! "cpu") ∧ is_Some (spec !! "gpu").

(** The resources the two specs of the worst-case test produce. *)
Definition big_resources : Resources :=
  {| ram := 500; cpu_cores := 10; gpu_count := 10 |}.

Definition small_resources : Resources :=
  {| ram := 5; cpu_cores := 1; gpu_count := 1 |}.

(** The data [testcase_random_sample] prepares before its timing loop.
    The random callables of its spec and its priority function are the
    parameters [random_resoure_spec] and [priorityfnc]. *)
Definition random_sample_setup {W : Type} (maxsize : Z)
    (random_resoure_spec : gmap string (W → Z * W)) (priorityfnc : W → Z * W)
    (ntasks nattempts : Z) (st : Z * W)
  : exc (list Task * list Resources * (Z * W)) :=
  '(tasklist, st) ←
    islice_tasks maxsize random_resoure_spec priorityfnc ntasks st;
  let '(genid, w) := st in
  '(consres_initial_list, w) ←
    take_resources random_resoure_spec (Z.to_nat (nattempts * 2)) w;
  Ok (tasklist, consres_initial_list, (genid, w)).

(** * Properties *)

(** ** The fit relation *)

Lemma Resources_le_spec (a b : Resources) :
  Resources_le a b = true ↔
  (ram a ≤ ram b)%Z ∧ (cpu_cores a ≤ cpu_cores b)%Z ∧ (gpu_count a ≤ gpu_count b)%Z.
Proof.
  unfold Resources_le. rewrite !andb_true_iff, !Z.leb_le. tauto.
Qed.

Lemma Resources_le_refl (a : Resources) : Resources_le a a = true.
Proof. apply Resources_le_spec. lia. Qed.

Lemma Resources_le_trans (a b c : Resources) :
  Resources_le a b = true → Resources_le b c = true → Resources_le a c = true.
Proof. rewrite !Resources_le_spec. lia. Qed.

Lemma Resources_le_antisym (a b : Resources) :
  Resources_le a b = true → Resources_le b a = true → a = b.
Proof.
  rewrite !Resources_le_spec. destruct a, b; simpl. intros. f_equal; lia.
Qed.

(** C7. [a <= b] on [Resources] holds exactly when every component of [a]
    is at most the matching component of [b]; the relation is reflexive,
    and it is not symmetric: some [a <= b] has [b <= a] false. *)
Theorem fits_within_componentwise :
  (∀ a b : Resources,
     Resources_le a b = true ↔
     (ram a ≤ ram b)%Z ∧ (cpu_cores a ≤ cpu_cores b)%Z ∧
     (gpu_count a ≤ gpu_count b)%Z) ∧
  (∀ a : Resources, Resources_le a a = true) ∧
  (∃ a b : Resources, Resources_le a b = true ∧ Resources_le b a = false).
Proof.
  split; [exact Resources_le_spec|]. split; [exact Resources_le_refl|].
  exists {| ram := 1; cpu_cores := 1; gpu_count := 1 |},
         {| ram := 2; cpu_cores := 1; gpu_count := 1 |}.
  split; reflexivity.
Qed.

(** C8. [<=] on [Resources] is a partial order (reflexive, antisymmetric,
    transitive) that is not total: two vectors exist neither of which is
    [<=] the other. *)
Theorem fits_within_partial_order :
  (∀ a : Resources, Resources_le a a = true) ∧
  (∀ a b : Resources,
     Resources_le a b = true → Resources_le b a = true → a = b) ∧
  (∀ a b c : Resources,
     Resources_le a b = true → Resources_le b c = true →
     Resources_le a c = true) ∧
  (∃ a b : Resources, Resources_le a b = false ∧ Resources_le b a = false).
Proof.
  split; [exact Resources_le_refl|]. split; [exact Resources_le_antisym|].
  split; [exact Resources_le_trans|].
  exists {| ram := 1; cpu_cores := 2; gpu_count := 1 |},
         {| ram := 2; cpu_cores := 1; gpu_count := 1 |}.
  split; reflexivity.
Qed.

Lemma fits_within_partial_order_witness :
  let a := {| ram := 1; cpu_cores := 1; gpu_count := 1 |} in
  let b := {| ram := 2; cpu_cores := 1; gpu_count := 1 |} in
  let c := {| ram := 2; cpu_cores := 3; gpu_count := 1 |} in
  Resources_le a b = true ∧ Resources_le b c = true ∧
  Resources_le a c = true ∧ a = a.
Proof.
  intros a b c.
  destruct fits_within_partial_order as (_ & Hanti & Htrans & _).
  split; [reflexivity|]. split; [reflexivity|]. split.
  - apply (Htrans a b c); reflexivity.
  - apply (Hanti a a); reflexivity.
Defined.

(** ** The builtins *)

Section list_remove_facts.
Context {A : Type} `{EqDecision A}.

Lemma list_remove_app (x : A) (l1 l2 : list A) :
  x ∉ l1 → list_remove x (l1 ++ x :: l2) = Ok (l1 ++ l2).
Proof.
  induction l1 as [|y l1 IH]; intros Hnotin; simpl.
  - by rewrite decide_True.
  - apply not_elem_of_cons in Hnotin as [Hne Hnotin].
    rewrite decide_False by congruence.
    by rewrite IH.
Qed.

Lemma list_remove_elem_of (x : A) (l : list A) :
  x ∈ l →
  ∃ l1 l2, l = l1 ++ x :: l2 ∧ (x ∉ l1) ∧ list_remove x l = Ok (l1 ++ l2).
Proof.
  induction l as [|y l IH]; intros Hin; [by apply elem_of_nil in Hin|].
  destruct (decide (y = x)) as [->|Hne].
  - exists [], l. split; [done|]. split; [apply not_elem_of_nil|].
    simpl. by rewrite decide_True.
  - apply elem_of_cons in Hin as [?|Hin]; [congruence|].
    destruct (IH Hin) as (l1 & l2 & -> & Hnotin & Hrm).
    exists (y :: l1), l2. split; [done|]. split.
    + apply not_elem_of_cons. split; [congruence | done].
    + simpl. rewrite decide_False by done. by rewrite Hrm.
Qed.
End list_remove_facts.

Section sorted_facts.
Context {A : Type} (key : A → Z).

Lemma insort_Permutation (x : A) (l : list A) : insort key x l ≡ₚ x :: l.
Proof.
  induction l as [|y l IH]; simpl; [done|].
  destruct (key x <=? key y)%Z; [done|].
  rewrite IH. apply Permutation_swap.
Qed.

Lemma sorted_Permutation (l : list A) : sorted key l ≡ₚ l.
Proof.
  induction l as [|x l IH]; simpl; [done|].
  by rewrite insort_Permutation, IH.
Qed.

Lemma insort_StronglySorted (x : A) (l : list A) :
  StronglySorted (λ a b, (key a ≤ key b)%Z) l →
  StronglySorted (λ a b, (key a ≤ key b)%Z) (insort key x l).
Proof.
  induction 1 as [|y l Hl IH Hy]; simpl.
  - repeat constructor.
  - destruct (Z.leb_spec (key x) (key y)) as [Hle|Hlt].
    + constructor; [by constructor|].
      constructor; [done|].
      eapply Forall_impl; [exact Hy|]. simpl. intros; lia.
    + constructor; [done|].
      rewrite insort_Permutation. constructor; [lia | done].
Qed.

Lemma sorted_StronglySorted (l : list A) :
  StronglySorted (λ a b, (key a ≤ key b)%Z) (sorted key l).
Proof.
  induction l as [|x l IH]; simpl; [constructor|].
  by apply insort_StronglySorted.
Qed.

(** Stability: the items of one key come out in the order they went in.
    With [sorted_StronglySorted] this fixes the result of the sort. *)
Lemma insort_stable (k : Z) (x : A) (l : list A) :
  filter (λ y, key y = k) (insort key x l) = filter (λ y, key y = k) (x :: l).
Proof.
  induction l as [|y l IH]; simpl; [done|].
  destruct (Z.leb_spec (key x) (key y)) as [Hle|Hlt]; [done|].
  rewrite (filter_cons _ y), IH, !filter_cons.
  repeat case_decide; (done || lia).
Qed.

Lemma sorted_stable (k : Z) (l : list A) :
  filter (λ y, key y = k) (sorted key l) = filter (λ y, key y = k) l.
Proof.
  induction l as [|x l IH]; simpl; [done|].
  by rewrite insort_stable, !filter_cons, IH.
Qed.

(** Any list that is ascending in the key and keeps, key by key, the items
    of [l] in their order is [sorted key l]: the result does not depend on
    the algorithm of the stable sort. *)
Lemma stable_sort_unique (l1 l2 : list A) :
  StronglySorted (λ a b, (key a ≤ key b)%Z) l1 →
  StronglySorted (λ a b, (key a ≤ key b)%Z) l2 →
  (∀ k, filter (λ y, key y = k) l1 = filter (λ y, key y = k) l2) →
  l1 = l2.
Proof.
  intros Hs1. revert l2.
  induction Hs1 as [|a l1 Hs1 IH Ha]; intros l2 Hs2 Hfilter.
  - destruct l2 as [|b l2]; [done|].
    specialize (Hfilter (key b)).
    rewrite filter_nil, filter_cons, decide_True in Hfilter by done. done.
  - destruct Hs2 as [|b l2 Hs2 Hb].
    { specialize (Hfilter (key a)).
      rewrite filter_nil, filter_cons, decide_True in Hfilter by done. done. }
    assert (key a = key b) as Hkey.
    { destruct (decide (key a = key b)) as [|Hne]; [done|].
      assert (b ∈ l1) as Hb1.
      { pose proof (Hfilter (key b)) as Hf.
        rewrite (filter_cons _ b), decide_True in Hf by done.
        rewrite (filter_cons _ a), decide_False in Hf by done.
        assert (b ∈ filter (λ y, key y = key b) l1) as Hin by (rewrite Hf; left).
        by apply list_elem_of_filter in Hin as [_ ?]. }
      assert (a ∈ l2) as Ha2.
      { pose proof (Hfilter (key a)) as Hf.
        rewrite (filter_cons _ a), decide_True in Hf by done.
        rewrite (filter_cons _ b), decide_False in Hf by done.
        assert (a ∈ filter (λ y, key y = key a) l2) as Hin by (rewrite <- Hf; left).
        by apply list_elem_of_filter in Hin as [_ ?]. }
      rewrite Forall_forall in Ha, Hb.
      specialize (Ha b Hb1). specialize (Hb a Ha2). lia. }
    pose proof (Hfilter (key a)) as Hhead.
    rewrite (filter_cons _ a), decide_True in Hhead by done.
    rewrite (filter_cons _ b), decide_True in Hhead by done.
    injection Hhead as -> _. f_equal. apply IH; [done|].
    intros k. specialize (Hfilter k). rewrite !filter_cons in Hfilter.
    case_decide; [by injection Hfilter | done].
Qed.

Lemma sorted_is_the_stable_sort (l l' : list A) :
  StronglySorted (λ a b, (key a ≤ key b)%Z) l' →
  (∀ k, filter (λ y, key y = k) l' = filter (λ y, key y = k) l) →
  l' = sorted key l.
Proof.
  intros Hsorted Hstable. apply stable_sort_unique; [done | |].
  - apply sorted_StronglySorted.
  - intros k. by rewrite Hstable, sorted_stable.
Qed.

(** The head of the sorted candidates: the first item of least key among
    those that satisfy the filter. *)
Lemma sorted_filter_head (P : A → bool) (l : list A) :
  match sorted key (filter (λ x, P x) l) with
  | [] => ∀ y, y ∈ l → P y = false
  | x :: _ =>
      ∃ l1 l2, l = l1 ++ x :: l2 ∧ P x = true ∧
        (∀ y, y ∈ l1 → P y = true → (key x < key y)%Z) ∧
        (∀ y, y ∈ l2 → P y = true → (key x ≤ key y)%Z)
  end.
Proof.
  induction l as [|a l IH].
  - simpl. intros y Hy. by apply elem_of_nil in Hy.
  - rewrite filter_cons. destruct (P a) eqn:Ha; simpl.
    + destruct (sorted key (filter (λ x, P x) l)) as [|x' r]; simpl.
      * exists [], l. split; [done|]. split; [done|]. split.
        -- intros y Hy. by apply elem_of_nil in Hy.
        -- intros y Hy Hfit. rewrite IH in Hfit; done.
      * destruct IH as (l1 & l2 & -> & Hx' & Hl1 & Hl2).
        destruct (Z.leb_spec (key a) (key x')) as [Hle|Hlt].
        -- exists [], (l1 ++ x' :: l2). split; [done|]. split; [done|]. split.
           ++ intros y Hy. by apply elem_of_nil in Hy.
           ++ intros y Hy Hfit.
              apply elem_of_app in Hy as [Hy|Hy].
              { specialize (Hl1 y Hy Hfit). lia. }
              apply elem_of_cons in Hy as [->|Hy]; [done|].
              specialize (Hl2 y Hy Hfit). lia.
        -- exists (a :: l1), l2. split; [done|]. split; [done|]. split; [|done].
           intros y Hy Hfit. apply elem_of_cons in Hy as [->|Hy]; auto.
    + destruct (sorted key (filter (λ x, P x) l)) as [|x' r].
      * intros y Hy. apply elem_of_cons in Hy as [->|Hy]; auto.
      * destruct IH as (l1 & l2 & -> & Hx' & Hl1 & Hl2).
        exists (a :: l1), l2. split; [done|]. split; [done|]. split; [|done].
        intros y Hy Hfit. apply elem_of_cons in Hy as [->|Hy]; [congruence|auto].
Qed.
End sorted_facts.

Lemma first_fit_None (avail : Resources) (b : list Task) :
  first_fit avail b = None ↔ ∀ y, y ∈ b → fits avail y = false.
Proof.
  induction b as [|a b IH]; simpl.
  - split; [|done]. intros _ y Hy. by apply elem_of_nil in Hy.
  - destruct (fits avail a) eqn:Ha.
    + split; [done|]. intros H. specialize (H a (list_elem_of_here _ _)). congruence.
    + rewrite IH. split.
      * intros H y Hy. apply elem_of_cons in Hy as [->|Hy]; auto.
      * intros H y Hy. apply H. by apply list_elem_of_further.
Qed.

Lemma first_fit_Some (avail : Resources) (b : list Task) (x : Task) :
  first_fit avail b = Some x ↔
  ∃ b1 b2, b = b1 ++ x :: b2 ∧ fits avail x = true ∧
    ∀ y, y ∈ b1 → fits avail y = false.
Proof.
  induction b as [|a b IH]; simpl.
  - split; [done|]. intros (b1 & b2 & Hb & _). by destruct b1.
  - destruct (fits avail a) eqn:Ha.
    + split.
      * intros [= ->]. exists [], b. split; [done|]. split; [done|].
        intros y Hy. by apply elem_of_nil in Hy.
      * intros (b1 & b2 & Hb & Hx & Hb1). destruct b1 as [|a' b1].
        -- by injection Hb as -> _.
        -- injection Hb as -> _.
           specialize (Hb1 a' (list_elem_of_here _ _)). congruence.
    + rewrite IH. split.
      * intros (b1 & b2 & -> & Hx & Hb1). exists (a :: b1), b2.
        split; [done|]. split; [done|].
        intros y Hy. apply elem_of_cons in Hy as [->|Hy]; auto.
      * intros (b1 & b2 & Hb & Hx & Hb1). destruct b1 as [|a' b1].
        -- injection Hb as -> _. congruence.
        -- injection Hb as -> ->. exists b1, b2. split; [done|]. split; [done|].
           intros y Hy. apply Hb1. by apply list_elem_of_further.
Qed.

Lemma first_fit_remove (avail : Resources) (b : list Task) (x : Task) :
  first_fit avail b = Some x →
  ∃ b1 b2, b = b1 ++ x :: b2 ∧ fits avail x = true ∧
    (∀ y, y ∈ b1 → fits avail y = false) ∧
    list_remove x b = Ok (b1 ++ b2).
Proof.
  intros (b1 & b2 & -> & Hx & Hb1)%first_fit_Some.
  exists b1, b2. split; [done|]. split; [done|]. split; [done|].
  apply list_remove_app. intros Hin. specialize (Hb1 x Hin). congruence.
Qed.

(** ** The single list *)

(** What [TaskQueue_list.get_task] does on any storage. *)
Lemma get_task_list_spec (s : list Task) (avail : Resources) :
  ((∀ y, y ∈ s → fits avail y = false) ∧
   TaskQueue_list.get_task s avail = Ok (None, s)) ∨
  (∃ x l1 l2, selects avail s x l1 l2 ∧
   TaskQueue_list.get_task s avail = Ok (Some x, l1 ++ l2)).
Proof.
  unfold TaskQueue_list.get_task.
  pose proof (sorted_filter_head priority (fits avail) s) as H.
  destruct (sorted priority (filter (λ x, fits avail x) s)) as [|x r].
  - by left.
  - right. destruct H as (l1 & l2 & -> & Hx & Hl1 & Hl2).
    exists x, l1, l2. split; [done|].
    rewrite list_remove_app; [done|].
    intros Hin. specialize (Hl1 x Hin Hx). lia.
Qed.

Lemma selects_unique (avail : Resources) (l : list Task) x l1 l2 x' l1' l2' :
  selects avail l x l1 l2 → selects avail l x' l1' l2' →
  x' = x ∧ l1' = l1 ∧ l2' = l2.
Proof.
  intros (Hl & Hx & H1 & H2) (Hl' & Hx' & H1' & H2').
  revert l1' Hl' H1'. subst l.
  induction l1 as [|a l1 IH]; intros [|a' l1'] Hl' H1'; simplify_eq/=.
  - done.
  - assert (priority x' < priority a')%Z by (apply H1'; [left | done]).
    assert (priority a' ≤ priority x')%Z.
    { apply H2; [|done]. apply elem_of_app. right. left. }
    lia.
  - assert (priority x < priority x')%Z by (apply H1; [left | done]).
    assert (priority x' ≤ priority x)%Z.
    { apply H2'; [|done]. apply elem_of_app. right. left. }
    lia.
  - destruct (IH) with (l1' := l1') as (-> & -> & ->); [| done | |done].
    + intros y Hy. apply H1. by right.
    + intros y Hy. apply H1'. by right.
Qed.

(** ** Sorted priority keys *)

Section sorted_keys.
Context {B : Type} (m : gmap Z B).

Lemma elem_of_sorted_keys (k : Z) :
  k ∈ sorted (λ k, k) (map_to_list m).*1 ↔ is_Some (m !! k).
Proof.
  rewrite sorted_Permutation, list_elem_of_fmap. split.
  - intros ([k' b] & -> & Hin). apply elem_of_map_to_list in Hin. by exists b.
  - intros [b Hb]. exists (k, b). split; [done|]. by apply elem_of_map_to_list.
Qed.

End sorted_keys.

(** ** The dict of lists *)

Section dict_of_lists.
Import TaskQueue_dict_of_lists.

Lemma DL_getitem_Some (m : gmap Z (list Task)) (k : Z) :
  is_Some (m !! k) → getitem m k = (bucket m k, m).
Proof. intros [b Hb]. unfold getitem, bucket. by rewrite Hb. Qed.

Lemma DL_bucket_insert (m : gmap Z (list Task)) (p q : Z) (b : list Task) :
  bucket (<[p := b]> m) q = if decide (p = q) then b else bucket m q.
Proof. unfold bucket. rewrite lookup_insert. by case_decide. Qed.

Lemma DL_bucket_absent (m : gmap Z (list Task)) (k : Z) :
  m !! k = None → bucket m k = [].
Proof. unfold bucket. by intros ->. Qed.

(** The loop over the priorities stops at the first bucket with a task
    that fits. *)
Lemma DL_loop_cases (m : gmap Z (list Task)) (avail : Resources) (ks : list Z) :
  (∀ k, k ∈ ks → is_Some (m !! k)) →
  ((∀ k, k ∈ ks → first_fit avail (bucket m k) = None) ∧
   get_task_loop m avail ks = Ok (None, m)) ∨
  (∃ ks1 p ks2 x,
     ks = ks1 ++ p :: ks2 ∧
     (∀ k, k ∈ ks1 → first_fit avail (bucket m k) = None) ∧
     first_fit avail (bucket m p) = Some x ∧
     get_task_loop m avail ks =
       (b' ← list_remove x (bucket m p); Ok (Some x, <[p := b']> m))).
Proof.
  induction ks as [|k ks IH]; intros Hdom.
  - left. split; [|done]. intros k Hk. by apply elem_of_nil in Hk.
  - simpl. rewrite DL_getitem_Some by (apply Hdom; left).
    destruct (first_fit avail (bucket m k)) as [x|] eqn:Hk.
    + right. exists [], k, ks, x. split; [done|]. split.
      { intros k' Hk'. by apply elem_of_nil in Hk'. }
      split; [done|].
      by rewrite DL_getitem_Some by (apply Hdom; left).
    + destruct IH as [[Hnone Hloop]|(ks1 & p & ks2 & x & -> & Hks1 & Hp & Hloop)].
      { intros k' Hk'. apply Hdom. by right. }
      * left. split; [|done].
        intros k' Hk'. apply elem_of_cons in Hk' as [->|Hk']; auto.
      * right. exists (k :: ks1), p, ks2, x. split; [done|]. split; [|done].
        intros k' Hk'. apply elem_of_cons in Hk' as [->|Hk']; auto.
Qed.

(** What [TaskQueue_dict_of_lists.get_task] does on any storage. *)
Lemma DL_get_task_cases (m : gmap Z (list Task)) (avail : Resources) :
  ((∀ p, first_fit avail (bucket m p) = None) ∧
   get_task m avail = Ok (None, m)) ∨
  (∃ p x b',
     is_Some (m !! p) ∧
     first_fit avail (bucket m p) = Some x ∧
     (∀ q, (q < p)%Z → first_fit avail (bucket m q) = None) ∧
     list_remove x (bucket m p) = Ok b' ∧
     get_task m avail = Ok (Some x, <[p := b']> m)).
Proof.
  unfold get_task, keys.
  destruct (DL_loop_cases m avail (sorted (λ k, k) (map_to_list m).*1))
    as [[Hnone Hloop]|(ks1 & p & ks2 & x & Hks & Hks1 & Hp & Hloop)].
  { intros k. apply elem_of_sorted_keys. }
  - left. split; [|done]. intros p.
    destruct (m !! p) as [b|] eqn:Hb.
    + apply Hnone, elem_of_sorted_keys. by exists b.
    + by rewrite DL_bucket_absent.
  - right.
    assert (is_Some (m !! p)) as Hdom.
    { apply elem_of_sorted_keys. rewrite Hks, elem_of_app. right. left. }
    destruct (first_fit_remove _ _ _ Hp) as (b1 & b2 & Hb & Hx & Hb1 & Hrm).
    exists p, x, (b1 ++ b2). split; [done|]. split; [done|]. split; [|split; [done|]].
    + intros q Hq. destruct (m !! q) as [b|] eqn:Hmq.
      * apply Hks1.
        assert (q ∈ ks1 ++ p :: ks2) as Hin.
        { rewrite <- Hks. apply elem_of_sorted_keys. by exists b. }
        apply elem_of_app in Hin as [Hin|Hin]; [done|].
        apply elem_of_cons in Hin as [->|Hin]; [lia|].
        assert (p ≤ q)%Z; [|lia].
        assert (StronglySorted Z.le (ks1 ++ p :: ks2)) as Hsorted.
        { rewrite <- Hks. apply (sorted_StronglySorted (λ k : Z, k)). }
        apply StronglySorted_app_1_r, StronglySorted_cons in Hsorted as [Hall _].
        rewrite Forall_forall in Hall. by apply Hall.
      * by rewrite DL_bucket_absent.
    + by rewrite Hloop, Hrm.
Qed.

(** The result is fixed by the buckets alone: the least priority whose
    bucket has a task that fits, and the first such task in it. *)
Lemma DL_get_task_hit (m : gmap Z (list Task)) (avail : Resources) p x :
  first_fit avail (bucket m p) = Some x →
  (∀ q, (q < p)%Z → first_fit avail (bucket m q) = None) →
  ∃ b', list_remove x (bucket m p) = Ok b' ∧
    get_task m avail = Ok (Some x, <[p := b']> m).
Proof.
  intros Hp Hlt.
  destruct (DL_get_task_cases m avail)
    as [[Hnone _]|(p' & x' & b' & _ & Hp' & Hlt' & Hrm & Hget)].
  - rewrite Hnone in Hp. done.
  - destruct (Z.lt_trichotomy p' p) as [Hc|[->|Hc]].
    + rewrite (Hlt _ Hc) in Hp'. done.
    + rewrite Hp in Hp'. injection Hp' as <-. by exists b'.
    + rewrite (Hlt' _ Hc) in Hp. done.
Qed.
End dict_of_lists.

(** ** The insertion-ordered dict *)

Section odict_facts.
Context {V : Type}.
Implicit Types d : list (Z * V).

Lemma odict_setitem_fresh (k : Z) (v : V) d :
  k ∉ d.*1 → odict_setitem k v d = d ++ [(k, v)].
Proof.
  induction d as [|[k' v'] d IH]; simpl; intros Hk; [done|].
  apply not_elem_of_cons in Hk as [Hne Hk].
  rewrite decide_False by done. by rewrite IH.
Qed.

Lemma odict_setitem_present (k : Z) (v v' : V) d1 d2 :
  k ∉ d1.*1 →
  odict_setitem k v (d1 ++ (k, v') :: d2) = d1 ++ (k, v) :: d2.
Proof.
  induction d1 as [|[k1 v1] d1 IH]; simpl; intros Hk.
  - by rewrite decide_True.
  - apply not_elem_of_cons in Hk as [Hne Hk].
    rewrite decide_False by done. by rewrite IH.
Qed.

Lemma odict_setitem_keys (k : Z) (v : V) d :
  (odict_setitem k v d).*1 = if decide (k ∈ d.*1) then d.*1 else d.*1 ++ [k].
Proof.
  induction d as [|[k' v'] d IH]; csimpl.
  - done.
  - destruct (decide (k' = k)) as [->|Hne]; csimpl.
    + rewrite decide_True; [done|]. left.
    + rewrite IH. destruct (decide (k ∈ d.*1)) as [Hin|Hnotin].
      * rewrite decide_True; [done|]. by right.
      * rewrite decide_False; [done|].
        apply not_elem_of_cons. split; [congruence | done].
Qed.

Lemma odict_delitem_app (k : Z) (v : V) d1 d2 :
  k ∉ d1.*1 → odict_delitem k (d1 ++ (k, v) :: d2) = Ok (d1 ++ d2).
Proof.
  induction d1 as [|[k1 v1] d1 IH]; simpl; intros Hk.
  - by rewrite decide_True.
  - apply not_elem_of_cons in Hk as [Hne Hk].
    rewrite decide_False by done. by rewrite IH.
Qed.

Lemma odict_delitem_present (k : Z) d :
  k ∈ d.*1 →
  ∃ d1 v d2, d = d1 ++ (k, v) :: d2 ∧ (k ∉ d1.*1) ∧
    odict_delitem k d = Ok (d1 ++ d2).
Proof.
  induction d as [|[k' v'] d IH]; simpl; intros Hk.
  - by apply elem_of_nil in Hk.
  - destruct (decide (k' = k)) as [->|Hne].
    + exists [], v', d. split; [done|]. split; [apply not_elem_of_nil | done].
    + apply elem_of_cons in Hk as [?|Hk]; [congruence|].
      destruct (IH Hk) as (d1 & v & d2 & -> & Hnotin & Hdel).
      exists ((k', v') :: d1), v, d2. split; [done|]. split.
      * simpl. apply not_elem_of_cons. split; [congruence | done].
      * by rewrite Hdel.
Qed.
End odict_facts.

Lemma first_fit_item_None (avail : Resources) (b : list (Z * Task)) :
  first_fit_item avail b = None ↔ ∀ y, y ∈ b.*2 → fits avail y = false.
Proof.
  induction b as [|[i a] b IH]; simpl.
  - split; [|done]. intros _ y Hy. by apply elem_of_nil in Hy.
  - destruct (fits avail a) eqn:Ha.
    + split; [done|]. intros H. specialize (H a (list_elem_of_here _ _)). congruence.
    + rewrite IH. split.
      * intros H y Hy. apply elem_of_cons in Hy as [->|Hy]; auto.
      * intros H y Hy. apply H. by apply list_elem_of_further.
Qed.

Lemma first_fit_item_Some (avail : Resources) (b : list (Z * Task)) i x :
  first_fit_item avail b = Some (i, x) →
  ∃ b1 b2, b = b1 ++ (i, x) :: b2 ∧ fits avail x = true ∧
    ∀ y, y ∈ b1.*2 → fits avail y = false.
Proof.
  induction b as [|[j a] b IH]; simpl; [done|].
  destruct (fits avail a) eqn:Ha.
  - intros [= -> ->]. exists [], b. split; [done|]. split; [done|].
    intros y Hy. by apply elem_of_nil in Hy.
  - intros (b1 & b2 & -> & Hx & Hb1)%IH. exists ((j, a) :: b1), b2.
    split; [done|]. split; [done|].
    intros y Hy. apply elem_of_cons in Hy as [->|Hy]; auto.
Qed.

(** ** The dict of dicts *)

Section dict_of_dicts.
Import TaskQueue_dict_of_dicts.

Lemma DD_getitem_Some (m : gmap Z (list (Z * Task))) (k : Z) :
  is_Some (m !! k) → getitem m k = (bucket m k, m).
Proof. intros [b Hb]. unfold getitem, bucket. by rewrite Hb. Qed.

Lemma DD_bucket_insert (m : gmap Z (list (Z * Task))) (p q : Z) b :
  bucket (<[p := b]> m) q = if decide (p = q) then b else bucket m q.
Proof. unfold bucket. rewrite lookup_insert. by case_decide. Qed.

Lemma DD_bucket_absent (m : gmap Z (list (Z * Task))) (k : Z) :
  m !! k = None → bucket m k = [].
Proof. unfold bucket. by intros ->. Qed.

Lemma DD_loop_cases (m : gmap Z (list (Z * Task))) (avail : Resources)
    (ks : list Z) :
  (∀ k, k ∈ ks → is_Some (m !! k)) →
  ((∀ k, k ∈ ks → first_fit_item avail (bucket m k) = None) ∧
   get_task_loop m avail ks = Ok (None, m)) ∨
  (∃ ks1 p ks2 i x,
     ks = ks1 ++ p :: ks2 ∧
     (∀ k, k ∈ ks1 → first_fit_item avail (bucket m k) = None) ∧
     first_fit_item avail (bucket m p) = Some (i, x) ∧
     get_task_loop m avail ks =
       (b' ← odict_delitem i (bucket m p); Ok (Some x, <[p := b']> m))).
Proof.
  induction ks as [|k ks IH]; intros Hdom.
  - left. split; [|done]. intros k Hk. by apply elem_of_nil in Hk.
  - simpl. rewrite DD_getitem_Some by (apply Hdom; left).
    destruct (first_fit_item avail (bucket m k)) as [[i x]|] eqn:Hk.
    + right. exists [], k, ks, i, x. split; [done|]. split.
      { intros k' Hk'. by apply elem_of_nil in Hk'. }
      split; [done|].
      by rewrite DD_getitem_Some by (apply Hdom; left).
    + destruct IH
        as [[Hnone Hloop]|(ks1 & p & ks2 & i & x & -> & Hks1 & Hp & Hloop)].
      { intros k' Hk'. apply Hdom. by right. }
      * left. split; [|done].
        intros k' Hk'. apply elem_of_cons in Hk' as [->|Hk']; auto.
      * right. exists (k :: ks1), p, ks2, i, x. split; [done|]. split; [|done].
        intros k' Hk'. apply elem_of_cons in Hk' as [->|Hk']; auto.
Qed.

(** What [TaskQueue_dict_of_dicts.get_task] does on any storage: the
    entry deleted is the first one under the key of the entry found. *)
Lemma DD_get_task_cases (m : gmap Z (list (Z * Task))) (avail : Resources) :
  ((∀ p, first_fit_item avail (bucket m p) = None) ∧
   get_task m avail = Ok (None, m)) ∨
  (∃ p i x b',
     is_Some (m !! p) ∧
     first_fit_item avail (bucket m p) = Some (i, x) ∧
     (∀ q, (q < p)%Z → first_fit_item avail (bucket m q) = None) ∧
     odict_delitem i (bucket m p) = Ok b' ∧
     get_task m avail = Ok (Some x, <[p := b']> m)).
Proof.
  unfold get_task, keys.
  destruct (DD_loop_cases m avail (sorted (λ k, k) (map_to_list m).*1))
    as [[Hnone Hloop]|(ks1 & p & ks2 & i & x & Hks & Hks1 & Hp & Hloop)].
  { intros k. apply elem_of_sorted_keys. }
  - left. split; [|done]. intros p.
    destruct (m !! p) as [b|] eqn:Hb.
    + apply Hnone, elem_of_sorted_keys. by exists b.
    + by rewrite DD_bucket_absent.
  - right.
    assert (is_Some (m !! p)) as Hdom.
    { apply elem_of_sorted_keys. rewrite Hks, elem_of_app. right. left. }
    destruct (first_fit_item_Some _ _ _ _ Hp) as (b1 & b2 & Hb & Hx & Hb1).
    destruct (odict_delitem_present i (bucket m p)) as (d1 & v & d2 & _ & _ & Hdel).
    { rewrite Hb, fmap_app, elem_of_app. right. left. }
    exists p, i, x, (d1 ++ d2).
    split; [done|]. split; [done|]. split; [|split; [done|]].
    + intros q Hq. destruct (m !! q) as [b|] eqn:Hmq.
      * apply Hks1.
        assert (q ∈ ks1 ++ p :: ks2) as Hin.
        { rewrite <- Hks. apply elem_of_sorted_keys. by exists b. }
        apply elem_of_app in Hin as [Hin|Hin]; [done|].
        apply elem_of_cons in Hin as [->|Hin]; [lia|].
        assert (p ≤ q)%Z; [|lia].
        assert (StronglySorted Z.le (ks1 ++ p :: ks2)) as Hsorted.
        { rewrite <- Hks. apply (sorted_StronglySorted (λ k : Z, k)). }
        apply StronglySorted_app_1_r, StronglySorted_cons in Hsorted as [Hall _].
        rewrite Forall_forall in Hall. by apply Hall.
      * by rewrite DD_bucket_absent.
    + by rewrite Hloop, Hdel.
Qed.

Lemma DD_get_task_hit (m : gmap Z (list (Z * Task))) (avail : Resources) p i x :
  first_fit_item avail (bucket m p) = Some (i, x) →
  (∀ q, (q < p)%Z → first_fit_item avail (bucket m q) = None) →
  ∃ b', odict_delitem i (bucket m p) = Ok b' ∧
    get_task m avail = Ok (Some x, <[p := b']> m).
Proof.
  intros Hp Hlt.
  destruct (DD_get_task_cases m avail)
    as [[Hnone _]|(p' & i' & x' & b' & _ & Hp' & Hlt' & Hrm & Hget)].
  - rewrite Hnone in Hp. done.
  - destruct (Z.lt_trichotomy p' p) as [Hc|[->|Hc]].
    + rewrite (Hlt _ Hc) in Hp'. done.
    + rewrite Hp in Hp'. injection Hp' as <- <-. by exists b'.
    + rewrite (Hlt' _ Hc) in Hp. done.
Qed.
End dict_of_dicts.

(** ** The tasks held by a dict of buckets *)

Section join_values.
Context {B : Type}.
Implicit Types m : gmap Z (list B).

Lemma join_values_insert m (p : Z) (b : list B) :
  mjoin (map_to_list (<[p := b]> m)).*2 ≡ₚ
  b ++ mjoin (map_to_list (delete p m)).*2.
Proof.
  rewrite <- insert_delete_eq.
  rewrite map_to_list_insert by apply lookup_delete_eq.
  done.
Qed.

Lemma join_values_lookup m (p : Z) :
  mjoin (map_to_list m).*2 ≡ₚ
  default [] (m !! p) ++ mjoin (map_to_list (delete p m)).*2.
Proof.
  destruct (m !! p) as [b|] eqn:Hb; simpl.
  - rewrite <- (insert_id m p b) at 1 by done. apply join_values_insert.
  - by rewrite delete_id.
Qed.

Lemma join_values_update m (p : Z) (b b' : list B) (extra : list B) :
  default [] (m !! p) = b → b' ≡ₚ b ++ extra →
  mjoin (map_to_list (<[p := b']> m)).*2 ≡ₚ mjoin (map_to_list m).*2 ++ extra.
Proof.
  intros Hb Hb'.
  rewrite join_values_insert, (join_values_lookup m p), Hb, Hb'.
  rewrite <- !(assoc (++)). apply Permutation_app_head, Permutation_app_comm.
Qed.

Lemma join_values_erase m (p : Z) (b' : list B) (x : B) :
  default [] (m !! p) ≡ₚ x :: b' →
  mjoin (map_to_list m).*2 ≡ₚ x :: mjoin (map_to_list (<[p := b']> m)).*2.
Proof.
  intros Hb.
  by rewrite join_values_insert, (join_values_lookup m p), Hb.
Qed.

Lemma elem_of_join_values m (y : B) :
  y ∈ mjoin (map_to_list m).*2 ↔ ∃ p, y ∈ default [] (m !! p).
Proof.
  rewrite list_elem_of_join. split.
  - intros (b & Hy & Hb). apply list_elem_of_fmap in Hb as ([p b'] & -> & Hin).
    apply elem_of_map_to_list in Hin. exists p. by rewrite Hin.
  - intros (p & Hy). destruct (m !! p) as [b|] eqn:Hb; simpl in Hy.
    + exists b. split; [done|]. apply list_elem_of_fmap. exists (p, b).
      split; [done|]. by apply elem_of_map_to_list.
    + by apply elem_of_nil in Hy.
Qed.

Lemma join_values_ext m1 m2 :
  same_buckets m1 m2 →
  mjoin (map_to_list m1).*2 ≡ₚ mjoin (map_to_list m2).*2.
Proof.
  revert m2. induction m1 as [|p b m1 Hp IH] using map_ind; intros m2 Hsame.
  - rewrite map_to_list_empty. simpl.
    destruct (mjoin (map_to_list m2).*2) as [|y r] eqn:Hr; [done|].
    assert (y ∈ mjoin (map_to_list m2).*2) as Hy by (rewrite Hr; left).
    apply elem_of_join_values in Hy as (q & Hy).
    rewrite <- Hsame, lookup_empty in Hy. by apply elem_of_nil in Hy.
  - rewrite map_to_list_insert by done. csimpl.
    rewrite (join_values_lookup m2 p), <- Hsame, lookup_insert_eq. simpl.
    apply Permutation_app_head, IH. intros q.
    destruct (decide (q = p)) as [->|Hne].
    + by rewrite Hp, lookup_delete_eq.
    + rewrite lookup_delete_ne by done.
      rewrite <- Hsame. by rewrite lookup_insert_ne.
Qed.
End join_values.

(** ** Effect of the two methods on the tasks held *)

Section dict_of_lists_effects.
Import TaskQueue_dict_of_lists.
Implicit Types m : gmap Z (list Task).

Lemma DL_add_task_eq m (t : Task) :
  add_task m t = Ok (<[priority t := bucket m (priority t) ++ [t]]> m).
Proof.
  unfold add_task, getitem, bucket.
  destruct (m !! priority t); simpl; [done|]. by rewrite insert_insert_eq.
Qed.

Lemma DL_resident_add m (t : Task) :
  resident (<[priority t := bucket m (priority t) ++ [t]]> m) ≡ₚ resident m ++ [t].
Proof. unfold resident. by eapply join_values_update. Qed.

Lemma DL_elem_of_resident m (y : Task) :
  y ∈ resident m ↔ ∃ p, y ∈ bucket m p.
Proof. apply elem_of_join_values. Qed.

Lemma DL_get_task_effect m (avail : Resources) :
  ∃ res m', get_task m avail = Ok (res, m') ∧
    (∀ q, is_Some (m' !! q) ↔ is_Some (m !! q)) ∧
    match res with
    | None => m' = m ∧ ∀ y, y ∈ resident m → fits avail y = false
    | Some x => fits avail x = true ∧ resident m ≡ₚ x :: resident m'
    end.
Proof.
  destruct (DL_get_task_cases m avail)
    as [[Hnone Hget]|(p & x & b' & Hdom & Hp & _ & Hrm & Hget)].
  - exists None, m. split; [done|]. split; [done|]. split; [done|].
    intros y (p & Hy)%DL_elem_of_resident.
    specialize (Hnone p). rewrite first_fit_None in Hnone. auto.
  - exists (Some x), (<[p := b']> m). split; [done|].
    destruct (first_fit_remove _ _ _ Hp) as (b1 & b2 & Hb & Hx & _ & Hrm').
    rewrite Hrm in Hrm'. injection Hrm' as ->.
    split; [|split; [done|]].
    + intros q. rewrite lookup_insert. case_decide; subst; naive_solver.
    + unfold resident. apply join_values_erase.
      fold (bucket m p). rewrite Hb. by rewrite Permutation_middle.
Qed.
End dict_of_lists_effects.

Section dict_of_dicts_effects.
Import TaskQueue_dict_of_dicts.
Implicit Types m : gmap Z (list (Z * Task)).

Lemma DD_add_task_eq m (t : Task) :
  add_task m t =
  Ok (<[priority t := odict_setitem (id t) t (bucket m (priority t))]> m).
Proof.
  unfold add_task, getitem, bucket.
  destruct (m !! priority t); simpl; [done|]. by rewrite insert_insert_eq.
Qed.

Lemma DD_elem_of_resident m (y : Task) :
  y ∈ resident m ↔ ∃ p, y ∈ (bucket m p).*2.
Proof.
  unfold resident. rewrite list_elem_of_fmap. split.
  - intros ([i x] & -> & (p & Hin)%elem_of_join_values).
    exists p. apply list_elem_of_fmap. by exists (i, x).
  - intros (p & ([i x] & -> & Hin)%list_elem_of_fmap).
    exists (i, x). split; [done|]. apply elem_of_join_values. by exists p.
Qed.

Lemma DD_wf_bucket m (p : Z) :
  DD_wf m → NoDup (bucket m p).*1 ∧ ∀ i x, (i, x) ∈ bucket m p → i = id x.
Proof.
  intros Hwf. unfold bucket. destruct (m !! p) as [d|] eqn:Hd; simpl.
  - by apply (Hwf p).
  - split; [constructor|]. intros i x Hin. by apply elem_of_nil in Hin.
Qed.

Lemma DD_wf_insert m (p : Z) (d : list (Z * Task)) :
  DD_wf m → NoDup d.*1 → (∀ i x, (i, x) ∈ d → i = id x) →
  DD_wf (<[p := d]> m).
Proof.
  intros Hwf Hnodup Hids q d' Hq. rewrite lookup_insert in Hq.
  case_decide; simplify_eq; [done|]. by apply (Hwf q).
Qed.

Lemma DD_wf_empty : DD_wf init.
Proof. intros p d Hd. unfold init in Hd. by rewrite lookup_empty in Hd. Qed.

(** A key of a bucket is the id of a task held. *)
Lemma DD_key_resident m (p i : Z) :
  DD_wf m → i ∈ (bucket m p).*1 → i ∈ id <$> resident m.
Proof.
  intros Hwf ([i' x] & -> & Hin)%list_elem_of_fmap.
  apply (DD_wf_bucket m p Hwf) in Hin as Hi. simpl in *. subst i'.
  apply list_elem_of_fmap. exists x. split; [done|].
  apply DD_elem_of_resident. exists p.
  apply list_elem_of_fmap. by exists (id x, x).
Qed.

Lemma DD_wf_add m (t : Task) :
  DD_wf m →
  DD_wf (<[priority t := odict_setitem (id t) t (bucket m (priority t))]> m).
Proof.
  intros Hwf. destruct (DD_wf_bucket m (priority t) Hwf) as [Hnodup Hids].
  apply DD_wf_insert; [done | |].
  - rewrite odict_setitem_keys. case_decide; [done|].
    apply NoDup_app. split; [done|]. split; [|apply NoDup_singleton].
    intros i Hi ->%list_elem_of_singleton. done.
  - intros i x Hin.
    destruct (decide (id t ∈ (bucket m (priority t)).*1)) as [Hk|Hk].
    + destruct (odict_delitem_present _ _ Hk) as (d1 & v & d2 & Hd & Hd1 & _).
      rewrite Hd, (odict_setitem_present _ _ _ _ _ Hd1) in Hin.
      rewrite Hd in Hids.
      apply elem_of_app in Hin as [Hin|Hin].
      * apply Hids. apply elem_of_app. by left.
      * apply elem_of_cons in Hin as [Hin|Hin]; [by simplify_eq|].
        apply Hids. apply elem_of_app. right. by right.
    + rewrite (odict_setitem_fresh _ _ _ Hk) in Hin.
      apply elem_of_app in Hin as [Hin|Hin]; [by apply Hids|].
      apply list_elem_of_singleton in Hin. by simplify_eq.
Qed.

Lemma DD_resident_append m (t : Task) :
  resident (<[priority t := bucket m (priority t) ++ [(id t, t)]]> m)
    ≡ₚ resident m ++ [t].
Proof.
  unfold resident.
  rewrite (join_values_update m (priority t) (bucket m (priority t)) _
             [(id t, t)]) by done.
  by rewrite fmap_app.
Qed.

Lemma DD_resident_replace m (p i : Z) (t old : Task) d1 d2 :
  bucket m p = d1 ++ (i, old) :: d2 →
  ∃ rest, resident m ≡ₚ old :: rest ∧
    resident (<[p := d1 ++ (i, t) :: d2]> m) ≡ₚ t :: rest.
Proof.
  intros Hb. exists ((d1 ++ d2).*2 ++ (mjoin (map_to_list (delete p m)).*2).*2).
  unfold resident. split.
  - rewrite (join_values_lookup m p). fold (bucket m p). rewrite Hb.
    rewrite !fmap_app, fmap_cons. simpl.
    by rewrite <- Permutation_middle.
  - rewrite join_values_insert.
    rewrite !fmap_app, fmap_cons. simpl.
    by rewrite <- Permutation_middle.
Qed.

Lemma DD_get_task_effect m (avail : Resources) :
  DD_wf m →
  ∃ res m', get_task m avail = Ok (res, m') ∧ DD_wf m' ∧
    (∀ q, is_Some (m' !! q) ↔ is_Some (m !! q)) ∧
    match res with
    | None => m' = m ∧ ∀ y, y ∈ resident m → fits avail y = false
    | Some x => fits avail x = true ∧ resident m ≡ₚ x :: resident m'
    end.
Proof.
  intros Hwf.
  destruct (DD_get_task_cases m avail)
    as [[Hnone Hget]|(p & i & x & b' & Hdom & Hp & _ & Hdel & Hget)].
  - exists None, m. split; [done|]. split; [done|]. split; [done|].
    split; [done|].
    intros y (p & Hy)%DD_elem_of_resident.
    specialize (Hnone p). rewrite first_fit_item_None in Hnone. auto.
  - exists (Some x), (<[p := b']> m). split; [done|].
    destruct (first_fit_item_Some _ _ _ _ Hp) as (b1 & b2 & Hb & Hx & _).
    destruct (DD_wf_bucket m p Hwf) as [Hnodup Hids].
    rewrite Hb in Hdel, Hnodup, Hids.
    rewrite fmap_app in Hnodup. apply NoDup_app in Hnodup as (Hn1 & Hdisj & Hn2).
    rewrite odict_delitem_app in Hdel.
    2:{ intros Hin. apply (Hdisj i Hin). left. }
    injection Hdel as <-.
    split; [|split; [|split; [done|]]].
    + apply DD_wf_insert; [done| |].
      * rewrite fmap_app. apply NoDup_app. split; [done|].
        csimpl in Hn2. apply NoDup_cons in Hn2 as [_ Hn2]. split; [|done].
        intros j Hj Hj'. apply (Hdisj j Hj). by right.
      * intros j y Hin. apply Hids. rewrite elem_of_app, elem_of_cons.
        apply elem_of_app in Hin. tauto.
    + intros q. rewrite lookup_insert. case_decide; subst; naive_solver.
    + unfold resident.
      rewrite (join_values_erase m p (b1 ++ b2) (i, x)); [done|].
      fold (bucket m p). rewrite Hb. by rewrite Permutation_middle.
Qed.
End dict_of_dicts_effects.

(** Every storage the two methods produce from a fresh dict of dicts has
    the shape [DD_wf]. *)
Lemma DD_wf_run (calls : list call) (m m' : gmap Z (list (Z * Task))) trace :
  DD_wf m → run Q_dict_of_dicts m calls = Ok (trace, m') → DD_wf m'.
Proof.
  revert m trace. induction calls as [|[t|r] calls IH]; intros m trace Hwf Hrun.
  - by injection Hrun as _ <-.
  - simpl in Hrun. rewrite DD_add_task_eq in Hrun. simpl in Hrun.
    eapply IH; [|exact Hrun]. by apply DD_wf_add.
  - simpl in Hrun.
    destruct (DD_get_task_effect m r Hwf) as (res & m1 & Hget & Hwf1 & _).
    rewrite Hget in Hrun. simpl in Hrun.
    destruct (run Q_dict_of_dicts m1 calls) as [[trace1 m2]|e] eqn:Hrun1;
      simpl in Hrun; [|done].
    injection Hrun as _ <-. by eapply IH.
Qed.


(** Closes [i ∉ l] for a list [l] of integers that evaluates to distinct
    literals. *)
Ltac not_held :=
  let H := fresh in
  intros H; vm_compute in H;
  repeat (apply elem_of_cons in H as [H|H]; [discriminate H|]);
  by apply elem_of_nil in H.

(** ** No match *)

(** C4. In each of the three classes, when no task held fits the available
    resources, [get_task] returns [None] without raising (also on the empty
    storage) and the storage, hence the multiset of ids held, is as before. *)
Theorem no_match_non_destructive :
  no_match_non_destructive_for Q_list ∧
  no_match_non_destructive_for Q_dict_of_lists ∧
  no_match_non_destructive_for Q_dict_of_dicts.
Proof.
  split; [|split]; intros s avail Hnone; exists s; simpl in *.
  - destruct (get_task_list_spec s avail)
      as [[_ Hget]|(x & l1 & l2 & (-> & Hx & _) & _)]; [done|].
    rewrite Hnone in Hx; [done|]. apply elem_of_app. right. left.
  - destruct (DL_get_task_effect s avail) as (res & m' & Hget & _ & Hres).
    destruct res as [x|].
    + destruct Hres as [Hx Hperm]. rewrite Hnone in Hx; [done|].
      rewrite Hperm. left.
    + by destruct Hres as [-> _].
  - destruct (DD_get_task_cases s avail)
      as [[_ Hget]|(p & i & x & b' & _ & Hp & _)]; [done|].
    destruct (first_fit_item_Some _ _ _ _ Hp) as (b1 & b2 & Hb & Hx & _).
    rewrite Hnone in Hx; [done|].
    apply DD_elem_of_resident. exists p. rewrite Hb, fmap_app, elem_of_app.
    right. left.
Qed.

Lemma no_match_non_destructive_witness :
  let t := sample_task 0 2 (ram_only 500) in
  absent_and_unchanged Q_list [t] (ram_only 5) ∧
  absent_and_unchanged Q_dict_of_lists {[ 2%Z := [t] ]} (ram_only 5) ∧
  absent_and_unchanged Q_dict_of_dicts {[ 2%Z := [(0%Z, t)] ]} (ram_only 5) ∧
  absent_and_unchanged Q_dict_of_dicts (init Q_dict_of_dicts) (ram_only 5).
Proof.
  intros t.
  destruct no_match_non_destructive as (Hl & Hdl & Hdd).
  split; [|split; [|split]].
  - apply (Hl [t]). intros y Hy.
    apply list_elem_of_singleton in Hy as ->. reflexivity.
  - apply (Hdl {[ 2%Z := [t] ]}). intros y Hy.
    apply list_elem_of_singleton in Hy as ->. reflexivity.
  - apply (Hdd {[ 2%Z := [(0%Z, t)] ]}). intros y Hy.
    apply list_elem_of_singleton in Hy as ->. reflexivity.
  - apply (Hdd ∅). intros y Hy. by apply elem_of_nil in Hy.
Defined.

(** ** Submitting *)

(** C9. [add_task] of a task whose id is not held succeeds and adds exactly
    that task.  The list gets it at its end; a dict gets it at the end of
    the bucket of its priority, and every other bucket is the same as
    before. *)
Theorem add_task_postcondition (t : Task) :
  (∀ s : list Task,
     id t ∉ id <$> TaskQueue_list.resident s →
     ∃ s', TaskQueue_list.add_task s t = Ok s' ∧
       TaskQueue_list.resident s' ≡ₚ TaskQueue_list.resident s ++ [t] ∧
       s' = s ++ [t]) ∧
  (∀ m : gmap Z (list Task),
     id t ∉ id <$> TaskQueue_dict_of_lists.resident m →
     ∃ m', TaskQueue_dict_of_lists.add_task m t = Ok m' ∧
       TaskQueue_dict_of_lists.resident m' ≡ₚ
         TaskQueue_dict_of_lists.resident m ++ [t] ∧
       m' !! priority t =
         Some (TaskQueue_dict_of_lists.bucket m (priority t) ++ [t]) ∧
       ∀ q, q ≠ priority t → m' !! q = m !! q) ∧
  (∀ m : gmap Z (list (Z * Task)),
     DD_wf m →
     id t ∉ id <$> TaskQueue_dict_of_dicts.resident m →
     ∃ m', TaskQueue_dict_of_dicts.add_task m t = Ok m' ∧
       DD_wf m' ∧
       TaskQueue_dict_of_dicts.resident m' ≡ₚ
         TaskQueue_dict_of_dicts.resident m ++ [t] ∧
       m' !! priority t =
         Some (TaskQueue_dict_of_dicts.bucket m (priority t) ++ [(id t, t)]) ∧
       ∀ q, q ≠ priority t → m' !! q = m !! q).
Proof.
  split; [|split].
  - intros s _. by exists (s ++ [t]).
  - intros m _. eexists. split; [apply DL_add_task_eq|].
    split; [apply DL_resident_add|]. split; [apply lookup_insert_eq|].
    intros q Hq. by apply lookup_insert_ne.
  - intros m Hwf Hfresh. eexists. split; [apply DD_add_task_eq|].
    split; [by apply DD_wf_add|].
    rewrite odict_setitem_fresh.
    2:{ intros Hk. apply Hfresh. by apply (DD_key_resident m (priority t)). }
    split; [apply DD_resident_append|]. split; [apply lookup_insert_eq|].
    intros q Hq. by apply lookup_insert_ne.
Qed.

Lemma add_task_postcondition_witness :
  let old := sample_task 1 2 (ram_only 5) in
  let new := sample_task 2 2 (ram_only 7) in
  (∃ s', TaskQueue_list.add_task [old] new = Ok s' ∧ s' = [old] ++ [new]) ∧
  (∃ m', TaskQueue_dict_of_lists.add_task {[ 2%Z := [old] ]} new = Ok m' ∧
     TaskQueue_dict_of_lists.resident m' ≡ₚ
       TaskQueue_dict_of_lists.resident {[ 2%Z := [old] ]} ++ [new]) ∧
  (∃ m', TaskQueue_dict_of_dicts.add_task {[ 2%Z := [(1%Z, old)] ]} new = Ok m' ∧
     TaskQueue_dict_of_dicts.resident m' ≡ₚ
       TaskQueue_dict_of_dicts.resident {[ 2%Z := [(1%Z, old)] ]} ++ [new]).
Proof.
  intros old new.
  destruct (add_task_postcondition new) as (Hl & Hdl & Hdd).
  split; [|split].
  - destruct (Hl [old]) as (s' & Hadd & _ & Hs'); [not_held|]. by exists s'.
  - destruct (Hdl {[ 2%Z := [old] ]}) as (m' & Hadd & Hres & _); [not_held|].
    by exists m'.
  - destruct (Hdd {[ 2%Z := [(1%Z, old)] ]}) as (m' & Hadd & _ & Hres & _);
      [|not_held|].
    + apply (DD_wf_insert ∅ 2 [(1%Z, old)]).
      * apply DD_wf_empty.
      * apply NoDup_singleton.
      * intros i x Hin. apply list_elem_of_singleton in Hin.
        by injection Hin as -> ->.
    + by exists m'.
Defined.

(** C5, as the code has it.  [add_task] of a task whose id is held never
    raises.  The list and the dict of lists then hold two tasks of that
    id; the dict of dicts replaces the task of that id in the bucket of the
    new task's priority, or holds both when they are in different buckets. *)
Theorem add_task_on_collision (t : Task) :
  (∀ s : list Task,
     id t ∈ id <$> TaskQueue_list.resident s →
     TaskQueue_list.add_task s t = Ok (s ++ [t])) ∧
  (∀ m : gmap Z (list Task),
     id t ∈ id <$> TaskQueue_dict_of_lists.resident m →
     ∃ m', TaskQueue_dict_of_lists.add_task m t = Ok m' ∧
       TaskQueue_dict_of_lists.resident m' ≡ₚ
         TaskQueue_dict_of_lists.resident m ++ [t]) ∧
  (∀ m : gmap Z (list (Z * Task)),
     DD_wf m →
     id t ∈ id <$> TaskQueue_dict_of_dicts.resident m →
     ∃ m', TaskQueue_dict_of_dicts.add_task m t = Ok m' ∧
       DD_wf m' ∧ DD_overwrites_or_duplicates m m' t).
Proof.
  split; [|split].
  - done.
  - intros m _. eexists. split; [apply DL_add_task_eq|]. apply DL_resident_add.
  - intros m Hwf _. eexists. split; [apply DD_add_task_eq|].
    split; [by apply DD_wf_add|].
    destruct (decide (id t ∈ (TaskQueue_dict_of_dicts.bucket m (priority t)).*1))
      as [Hk|Hk].
    + left.
      destruct (odict_delitem_present _ _ Hk) as (d1 & old & d2 & Hd & Hd1 & _).
      destruct (DD_resident_replace m (priority t) (id t) t old d1 d2 Hd)
        as (rest & Hm & Hm').
      exists old, rest. split; [|split; [done|]].
      * rewrite Hd, elem_of_app. right. left.
      * by rewrite Hd, (odict_setitem_present _ _ _ _ _ Hd1).
    + right. split; [done|].
      rewrite (odict_setitem_fresh _ _ _ Hk). apply DD_resident_append.
Qed.

Lemma add_task_on_collision_witness :
  let old := sample_task 1 2 (ram_only 5) in
  let new := sample_task 1 2 (ram_only 7) in
  TaskQueue_list.add_task [old] new = Ok ([old] ++ [new]) ∧
  (∃ m', TaskQueue_dict_of_lists.add_task {[ 2%Z := [old] ]} new = Ok m' ∧
     TaskQueue_dict_of_lists.resident m' ≡ₚ
       TaskQueue_dict_of_lists.resident {[ 2%Z := [old] ]} ++ [new]) ∧
  (∃ m', TaskQueue_dict_of_dicts.add_task {[ 2%Z := [(1%Z, old)] ]} new = Ok m' ∧
     DD_wf m' ∧
     DD_overwrites_or_duplicates {[ 2%Z := [(1%Z, old)] ]} m' new).
Proof.
  intros old new.
  destruct (add_task_on_collision new) as (Hl & Hdl & Hdd).
  split; [|split].
  - apply (Hl [old]). left.
  - apply (Hdl {[ 2%Z := [old] ]}). left.
  - apply (Hdd {[ 2%Z := [(1%Z, old)] ]}); [|left].
    apply (DD_wf_insert ∅ 2 [(1%Z, old)]).
    + apply DD_wf_empty.
    + apply NoDup_singleton.
    + intros i x Hin. apply list_elem_of_singleton in Hin.
      by injection Hin as -> ->.
Defined.

(** C5, as the specification has it, fails: a task whose id is held is
    accepted by each class.  The list and the dict of lists end up with two
    tasks of id 1, the dict of dicts with the new task in place of the old. *)
Lemma collision_not_rejected :
  let old := sample_task 1 2 (ram_only 5) in
  let new := sample_task 1 2 (ram_only 7) in
  (id new ∈ id <$> resident Q_list [old] ∧
   add_task Q_list [old] new = Ok [old; new]) ∧
  (id new ∈ id <$> resident Q_dict_of_lists {[ 2%Z := [old] ]} ∧
   add_task Q_dict_of_lists {[ 2%Z := [old] ]} new =
     Ok {[ 2%Z := [old; new] ]}) ∧
  (id new ∈ id <$> resident Q_dict_of_dicts {[ 2%Z := [(1%Z, old)] ]} ∧
   add_task Q_dict_of_dicts {[ 2%Z := [(1%Z, old)] ]} new =
     Ok {[ 2%Z := [(1%Z, new)] ]}) ∧
  ¬ rejects_collisions Q_list ∧
  ¬ rejects_collisions Q_dict_of_lists ∧
  ¬ rejects_collisions Q_dict_of_dicts.
Proof.
  intros old new.
  assert (id new ∈ id <$> resident Q_list [old]) as H1 by left.
  assert (id new ∈ id <$> resident Q_dict_of_lists {[ 2%Z := [old] ]})
    as H2 by left.
  assert (id new ∈ id <$> resident Q_dict_of_dicts {[ 2%Z := [(1%Z, old)] ]})
    as H3 by left.
  split; [by split|]. split; [by split|]. split; [by split|].
  split; [|split].
  - intros Hrej. by destruct (Hrej _ _ H1) as [e He].
  - intros Hrej. by destruct (Hrej _ _ H2) as [e He].
  - intros Hrej. by destruct (Hrej _ _ H3) as [e He].
Qed.

(** ** Sequences of calls *)

Lemma run_app (Q : TaskQueue) (s : storage Q) (calls1 calls2 : list call) :
  run Q s (calls1 ++ calls2) =
  '(trace1, s1) ← run Q s calls1;
  '(trace2, s2) ← run Q s1 calls2;
  Ok (trace1 ++ trace2, s2).
Proof.
  revert s. induction calls1 as [|[t|r] calls1 IH]; intros s; simpl.
  - by destruct (run Q s calls2) as [[trace2 s2]|e].
  - destruct (add_task Q s t) as [s'|e]; simpl; [apply IH | done].
  - destruct (get_task Q s r) as [[res s']|e]; simpl; [|done].
    rewrite IH. destruct (run Q s' calls1) as [[trace1 s1]|e]; simpl; [|done].
    by destruct (run Q s1 calls2) as [[trace2 s2]|e].
Qed.

Lemma submitted_app (calls1 calls2 : list call) :
  submitted (calls1 ++ calls2) = submitted calls1 ++ submitted calls2.
Proof. apply omap_app. Qed.

(** A class whose [add_task] adds one task and whose [get_task] takes out
    the task it returns conserves tasks along any sequence of calls with
    distinct ids: submitted = returned + held. *)
Section conservation.
Context (Q : TaskQueue) (inv : storage Q → Prop).

Hypothesis add_ok : ∀ s t,
  inv s → id t ∉ id <$> resident Q s →
  ∃ s', add_task Q s t = Ok s' ∧ inv s' ∧
    resident Q s' ≡ₚ resident Q s ++ [t].

Hypothesis get_ok : ∀ s r,
  inv s →
  ∃ res s', get_task Q s r = Ok (res, s') ∧ inv s' ∧
    match res with
    | None => resident Q s' ≡ₚ resident Q s
    | Some x => resident Q s ≡ₚ x :: resident Q s'
    end.

Lemma run_conservation (calls : list call) (s : storage Q) :
  inv s →
  NoDup (id <$> (resident Q s ++ submitted calls)) →
  ∃ trace s', run Q s calls = Ok (trace, s') ∧ inv s' ∧
    resident Q s ++ submitted calls ≡ₚ returned trace ++ resident Q s'.
Proof.
  revert s. induction calls as [|[t|r] calls IH]; intros s Hinv Hnodup.
  - exists [], s. split; [done|]. split; [done|]. simpl. by rewrite app_nil_r.
  - simpl. change (submitted (Submit t :: calls)) with (t :: submitted calls) in *.
    destruct (add_ok s t Hinv) as (s1 & -> & Hinv1 & Hres1).
    { rewrite fmap_app, fmap_cons in Hnodup.
      apply NoDup_app in Hnodup as (_ & Hdisj & _).
      intros Hin. apply (Hdisj _ Hin). left. }
    simpl.
    assert (resident Q s ++ t :: submitted calls ≡ₚ
            resident Q s1 ++ submitted calls) as Hperm.
    { rewrite Hres1, <- (assoc (++)). done. }
    destruct (IH s1 Hinv1) as (trace & s' & Hrun & Hinv' & Hcons).
    { by rewrite <- Hperm. }
    exists trace, s'. split; [done|]. split; [done|]. by rewrite Hperm.
  - simpl. change (submitted (Withdraw r :: calls)) with (submitted calls) in *.
    destruct (get_ok s r Hinv) as (res & s1 & -> & Hinv1 & Hres1). simpl.
    destruct res as [x|].
    + destruct (IH s1 Hinv1) as (trace & s' & -> & Hinv' & Hcons).
      { rewrite Hres1 in Hnodup. csimpl in Hnodup.
        by apply NoDup_cons in Hnodup as [_ ?]. }
      exists (Some x :: trace), s'. split; [done|]. split; [done|].
      change (returned (Some x :: trace)) with (x :: returned trace).
      rewrite Hres1. simpl. by rewrite Hcons.
    + destruct (IH s1 Hinv1) as (trace & s' & -> & Hinv' & Hcons).
      { by rewrite Hres1. }
      exists (None :: trace), s'. split; [done|]. split; [done|].
      change (returned (None :: trace)) with (returned trace).
      by rewrite <- Hres1.
Qed.

Hypothesis init_ok : inv (init Q).
Hypothesis init_empty : resident Q (init Q) = [].

Lemma exactly_once_of_conservation (calls : list call) :
  NoDup (id <$> submitted calls) → exactly_once Q calls.
Proof.
  intros Hnodup. split.
  - destruct (run_conservation calls (init Q) init_ok)
      as (trace & s & Hrun & _ & Hcons).
    { by rewrite init_empty. }
    exists trace, s. split; [done|].
    rewrite init_empty in Hcons. simpl in Hcons.
    rewrite Hcons, fmap_app in Hnodup.
    by apply NoDup_app in Hnodup as (? & _).
  - intros before r after ->.
    rewrite submitted_app, fmap_app in Hnodup.
    apply NoDup_app in Hnodup as (Hnodup & _).
    destruct (run_conservation before (init Q) init_ok)
      as (trace & s & Hrun & Hinv & Hcons).
    { by rewrite init_empty. }
    rewrite init_empty in Hcons. simpl in Hcons.
    destruct (get_ok s r Hinv) as (res & s' & Hget & _ & Hres).
    exists trace, s, res, s'. split; [done|]. split; [done|].
    intros x ->.
    rewrite Hcons, Hres in Hnodup |- *.
    rewrite fmap_app, fmap_cons in Hnodup |- *.
    apply NoDup_app in Hnodup as (_ & Hdisj & Hnodup').
    apply NoDup_cons in Hnodup' as [Hnotin _].
    split; [|split; [|split; [|done]]].
    + apply elem_of_app. right. left.
    + intros Hin. apply (Hdisj _ Hin). left.
    + left.
Qed.
End conservation.

(** C6. Over any sequence of calls that submits distinct ids, in each of
    the three classes: no id is returned by two [get_task] calls, a task
    returned is no longer held when the call returns, and its id was
    submitted before. *)
Theorem exactly_once_withdrawal (calls : list call) :
  NoDup (id <$> submitted calls) →
  exactly_once Q_list calls ∧
  exactly_once Q_dict_of_lists calls ∧
  exactly_once Q_dict_of_dicts calls.
Proof.
  intros Hnodup. split; [|split].
  - apply (exactly_once_of_conservation Q_list (λ _, True)); try done.
    + intros s t _ _. by exists (s ++ [t]).
    + intros s r _. simpl.
      destruct (get_task_list_spec s r)
        as [[_ ->]|(x & l1 & l2 & (-> & _) & ->)].
      * by exists None, s.
      * exists (Some x), (l1 ++ l2). split; [done|]. split; [done|].
        unfold TaskQueue_list.resident. by rewrite Permutation_middle.
  - apply (exactly_once_of_conservation Q_dict_of_lists (λ _, True)); try done.
    + intros m t _ _. eexists. split; [apply DL_add_task_eq|].
      split; [done|]. apply DL_resident_add.
    + intros m r _. simpl.
      destruct (DL_get_task_effect m r) as (res & m' & Hget & _ & Hres).
      exists res, m'. split; [done|]. split; [done|].
      destruct res; [by destruct Hres | by destruct Hres as [-> _]].
  - apply (exactly_once_of_conservation Q_dict_of_dicts DD_wf); try done.
    + intros m t Hwf Hfresh. eexists. split; [apply DD_add_task_eq|].
      split; [by apply DD_wf_add|].
      rewrite odict_setitem_fresh; [apply DD_resident_append|].
      intros Hk. apply Hfresh. by apply (DD_key_resident m (priority t)).
    + intros m r Hwf. simpl.
      destruct (DD_get_task_effect m r Hwf) as (res & m' & Hget & Hwf' & _ & Hres).
      exists res, m'. split; [done|]. split; [done|].
      destruct res; [by destruct Hres | by destruct Hres as [-> _]].
Qed.

Lemma exactly_once_withdrawal_witness :
  NoDup (id <$> submitted (scenario_calls (ram_only 5))) ∧
  exactly_once Q_list (scenario_calls (ram_only 5)) ∧
  exactly_once Q_dict_of_lists (scenario_calls (ram_only 5)) ∧
  exactly_once Q_dict_of_dicts (scenario_calls (ram_only 5)).
Proof.
  assert (NoDup (id <$> submitted (scenario_calls (ram_only 5)))) as Hnodup.
  { vm_compute. repeat (apply NoDup_cons; split; [not_held|]). apply NoDup_nil_2. }
  split; [exact Hnodup|].
  apply (exactly_once_withdrawal (scenario_calls (ram_only 5)) Hnodup).
Defined.

(** ** The two dicts against the single list *)

Lemma selects_position (avail : Resources) (l : list Task) x l1 l2 :
  selects avail l x l1 l2 →
  (∀ y, y ∈ l → fits avail y = true → (priority x ≤ priority y)%Z) ∧
  l !! length l1 = Some x ∧
  ∀ j y, l !! j = Some y → fits avail y = true →
         priority y = priority x → length l1 ≤ j.
Proof.
  intros (-> & Hx & Hl1 & Hl2). split; [|split].
  - intros y Hy Hfit. apply elem_of_app in Hy as [Hy|Hy].
    + specialize (Hl1 y Hy Hfit). lia.
    + apply elem_of_cons in Hy as [->|Hy]; [done | by apply Hl2].
  - by rewrite list_lookup_middle.
  - intros j y Hj Hfit Hprio.
    destruct (decide (length l1 ≤ j)) as [|Hlt]; [done|].
    rewrite lookup_app_l in Hj by lia.
    apply list_elem_of_lookup_2 in Hj. specialize (Hl1 y Hj Hfit). lia.
Qed.

Section filter_by_priority.
Implicit Types l : list Task.

Lemma filter_priority_snoc l (t : Task) (p : Z) :
  filter (λ t, priority t = p) (l ++ [t]) =
  if decide (priority t = p)
  then filter (λ t, priority t = p) l ++ [t]
  else filter (λ t, priority t = p) l.
Proof.
  rewrite filter_app, filter_cons, filter_nil.
  case_decide; [done|]. by rewrite app_nil_r.
Qed.

Lemma filter_priority_middle l1 l2 (x : Task) (p : Z) :
  filter (λ t, priority t = p) (l1 ++ x :: l2) =
  if decide (priority x = p)
  then filter (λ t, priority t = p) l1 ++ x :: filter (λ t, priority t = p) l2
  else filter (λ t, priority t = p) (l1 ++ l2).
Proof. rewrite !filter_app, filter_cons. by case_decide. Qed.
End filter_by_priority.

(** The task the single list selects is the one the scan of the buckets
    meets first. *)
Lemma selects_first_fit (avail : Resources) (l : list Task) x l1 l2 :
  selects avail l x l1 l2 →
  first_fit avail (filter (λ t, priority t = priority x) l) = Some x ∧
  (∀ y, y ∈ filter (λ t, priority t = priority x) l1 → fits avail y = false) ∧
  ∀ q, (q < priority x)%Z →
       first_fit avail (filter (λ t, priority t = q) l) = None.
Proof.
  intros (-> & Hx & Hl1 & Hl2).
  assert (∀ y, y ∈ filter (λ t, priority t = priority x) l1 →
               fits avail y = false) as Hb1.
  { intros y [Hprio Hy]%list_elem_of_filter.
    destruct (fits avail y) eqn:Hfit; [|done].
    specialize (Hl1 y Hy Hfit). lia. }
  split; [|split; [done|]].
  - apply first_fit_Some.
    exists (filter (λ t, priority t = priority x) l1),
           (filter (λ t, priority t = priority x) l2).
    rewrite filter_priority_middle, decide_True by done. done.
  - intros q Hq. apply first_fit_None.
    intros y [Hprio Hy]%list_elem_of_filter.
    destruct (fits avail y) eqn:Hfit; [|done].
    apply elem_of_app in Hy as [Hy|Hy].
    + specialize (Hl1 y Hy Hfit). lia.
    + apply elem_of_cons in Hy as [->|Hy]; [lia|].
      specialize (Hl2 y Hy Hfit). lia.
Qed.

Lemma first_fit_item_fmap (avail : Resources) (b : list Task) :
  first_fit_item avail ((λ t, (id t, t)) <$> b) =
  (λ t, (id t, t)) <$> first_fit avail b.
Proof.
  induction b as [|a b IH]; csimpl; [done|].
  by destruct (fits avail a).
Qed.

Section dict_of_lists_simulation.
Import TaskQueue_dict_of_lists.

Lemma DL_repr_init : DL_repr [] init.
Proof. done. Qed.

Lemma DL_repr_add (l : list Task) (m : gmap Z (list Task)) (t : Task) :
  DL_repr l m →
  DL_repr (l ++ [t]) (<[priority t := bucket m (priority t) ++ [t]]> m).
Proof.
  intros Hrep p. rewrite DL_bucket_insert, filter_priority_snoc.
  case_decide; subst; by rewrite Hrep.
Qed.

Lemma DL_repr_get (l : list Task) (m : gmap Z (list Task)) (avail : Resources) :
  DL_repr l m →
  ∃ res l' m',
    TaskQueue_list.get_task l avail = Ok (res, l') ∧
    get_task m avail = Ok (res, m') ∧
    DL_repr l' m'.
Proof.
  intros Hrep.
  destruct (get_task_list_spec l avail)
    as [[Hnone Hget]|(x & l1 & l2 & Hsel & Hget)].
  - exists None, l, m. split; [done|]. split; [|done].
    destruct (DL_get_task_cases m avail)
      as [[_ Hget']|(p & x & b' & _ & Hp & _)]; [done|].
    apply first_fit_Some in Hp as (b1 & b2 & Hb & Hx & _).
    rewrite Hnone in Hx; [done|].
    assert (x ∈ bucket m p) as Hin by (rewrite Hb, elem_of_app; right; left).
    rewrite Hrep in Hin. by apply list_elem_of_filter in Hin as [_ ?].
  - destruct (selects_first_fit _ _ _ _ _ Hsel) as (Hfirst & Hb1 & Hlt).
    destruct (DL_get_task_hit m avail (priority x) x) as (b' & Hrm & Hget').
    { by rewrite Hrep. }
    { intros q Hq. rewrite Hrep. by apply Hlt. }
    exists (Some x), (l1 ++ l2), (<[priority x := b']> m).
    split; [done|]. split; [done|].
    destruct Hsel as (-> & Hx & _).
    rewrite Hrep, filter_priority_middle, decide_True in Hrm by done.
    rewrite list_remove_app in Hrm.
    2:{ intros Hin. specialize (Hb1 x Hin). congruence. }
    injection Hrm as <-.
    intros p. rewrite DL_bucket_insert. case_decide as Hp.
    + subst p. by rewrite filter_app.
    + by rewrite Hrep, filter_priority_middle, decide_False.
Qed.
End dict_of_lists_simulation.

Section dict_of_dicts_simulation.
Import TaskQueue_dict_of_dicts.

Lemma DD_repr_init : DD_repr [] init.
Proof. done. Qed.

Lemma DD_repr_add (l : list Task) (m : gmap Z (list (Z * Task))) (t : Task) :
  DD_repr l m → id t ∉ id <$> l →
  DD_repr (l ++ [t])
    (<[priority t := odict_setitem (id t) t (bucket m (priority t))]> m).
Proof.
  intros Hrep Hfresh p. rewrite DD_bucket_insert, filter_priority_snoc.
  case_decide as Hp; [|by rewrite Hrep].
  subst p. rewrite odict_setitem_fresh, Hrep, fmap_app; [done|].
  rewrite Hrep, <- list_fmap_compose. intros Hin. apply Hfresh.
  apply list_elem_of_fmap in Hin as (y & Hy & Hin). simpl in Hy.
  apply list_elem_of_filter in Hin as [_ Hin].
  apply list_elem_of_fmap. by exists y.
Qed.

Lemma DD_repr_get (l : list Task) (m : gmap Z (list (Z * Task)))
    (avail : Resources) :
  DD_repr l m → NoDup (id <$> l) →
  ∃ res l' m',
    TaskQueue_list.get_task l avail = Ok (res, l') ∧
    get_task m avail = Ok (res, m') ∧
    DD_repr l' m'.
Proof.
  intros Hrep Hnodup.
  destruct (get_task_list_spec l avail)
    as [[Hnone Hget]|(x & l1 & l2 & Hsel & Hget)].
  - exists None, l, m. split; [done|]. split; [|done].
    destruct (DD_get_task_cases m avail)
      as [[_ Hget']|(p & i & x & b' & _ & Hp & _)]; [done|].
    rewrite Hrep, first_fit_item_fmap in Hp.
    destruct (first_fit avail (filter (λ t, priority t = p) l))
      as [x'|] eqn:Hfirst; [|done].
    apply first_fit_Some in Hfirst as (b1 & b2 & Hb & Hx & _).
    rewrite Hnone in Hx; [done|].
    assert (x' ∈ filter (λ t, priority t = p) l) as Hin.
    { rewrite Hb, elem_of_app. right. left. }
    by apply list_elem_of_filter in Hin as [_ ?].
  - destruct (selects_first_fit _ _ _ _ _ Hsel) as (Hfirst & Hb1 & Hlt).
    destruct (DD_get_task_hit m avail (priority x) (id x) x) as (b' & Hdel & Hget').
    { by rewrite Hrep, first_fit_item_fmap, Hfirst. }
    { intros q Hq. by rewrite Hrep, first_fit_item_fmap, Hlt. }
    exists (Some x), (l1 ++ l2), (<[priority x := b']> m).
    split; [done|]. split; [done|].
    destruct Hsel as (-> & Hx & _).
    rewrite Hrep, filter_priority_middle, decide_True in Hdel by done.
    rewrite fmap_app, fmap_cons, odict_delitem_app in Hdel.
    2:{ rewrite <- list_fmap_compose. intros Hin.
        apply list_elem_of_fmap in Hin as (y & Hy & Hin). simpl in Hy.
        apply list_elem_of_filter in Hin as [_ Hin].
        rewrite fmap_app, fmap_cons in Hnodup.
        apply NoDup_app in Hnodup as (_ & Hdisj & _).
        apply (Hdisj (id y)); [by apply list_elem_of_fmap_2|].
        rewrite <- Hy. left. }
    injection Hdel as <-.
    intros p. rewrite DD_bucket_insert. case_decide as Hp.
    + subst p. by rewrite filter_app, fmap_app.
    + by rewrite Hrep, filter_priority_middle, decide_False.
Qed.
End dict_of_dicts_simulation.

Lemma get_task_list_held (l l' : list Task) (avail : Resources) res :
  TaskQueue_list.get_task l avail = Ok (res, l') →
  match res with
  | None => l' = l
  | Some x => l ≡ₚ x :: l'
  end.
Proof.
  destruct (get_task_list_spec l avail)
    as [[_ ->]|(x & l1 & l2 & (-> & _) & ->)]; intros [= <- <-]; [done|].
  by rewrite Permutation_middle.
Qed.

Lemma get_task_list_selects (avail : Resources) (l : list Task) x l1 l2 :
  selects avail l x l1 l2 →
  TaskQueue_list.get_task l avail = Ok (Some x, l1 ++ l2).
Proof.
  intros Hsel.
  destruct (get_task_list_spec l avail)
    as [[Hnone _]|(x' & l1' & l2' & Hsel' & ->)].
  - destruct Hsel as (-> & Hx & _). rewrite Hnone in Hx; [done|].
    apply elem_of_app. right. left.
  - by destruct (selects_unique _ _ _ _ _ _ _ _ Hsel Hsel') as (-> & -> & ->).
Qed.

Lemma get_task_list_none (avail : Resources) (l : list Task) :
  (∀ y, y ∈ l → fits avail y = false) →
  TaskQueue_list.get_task l avail = Ok (None, l).
Proof.
  intros Hnone.
  destruct (get_task_list_spec l avail)
    as [[_ ->]|(x & l1 & l2 & (-> & Hx & _) & _)]; [done|].
  rewrite Hnone in Hx; [done|]. apply elem_of_app. right. left.
Qed.

Lemma submitted_Submit (ts : list Task) : submitted (Submit <$> ts) = ts.
Proof.
  induction ts as [|t ts IH]; [done|].
  csimpl. unfold submitted in *. simpl. by rewrite IH.
Qed.

Lemma run_list_submits (l ts : list Task) :
  run Q_list l (Submit <$> ts) = Ok ([], l ++ ts).
Proof.
  revert l. induction ts as [|t ts IH]; intros l; csimpl.
  - by rewrite app_nil_r.
  - unfold TaskQueue_list.add_task. simpl. rewrite IH.
    by rewrite <- (assoc (++)).
Qed.

(** A class that keeps up with the single list, step by step, returns what
    the single list returns. *)
Section simulation.
Context (Q : TaskQueue) (R : list Task → storage Q → Prop).

Hypothesis sim_add : ∀ l s t,
  R l s → id t ∉ id <$> l →
  ∃ s', add_task Q s t = Ok s' ∧ R (l ++ [t]) s'.

Hypothesis sim_get : ∀ l s r,
  R l s → NoDup (id <$> l) →
  ∃ res l' s',
    TaskQueue_list.get_task l r = Ok (res, l') ∧
    get_task Q s r = Ok (res, s') ∧
    R l' s'.

Lemma run_simulation (calls : list call) (l : list Task) (s : storage Q) :
  R l s →
  NoDup (id <$> (l ++ submitted calls)) →
  ∃ trace l' s',
    run Q_list l calls = Ok (trace, l') ∧
    run Q s calls = Ok (trace, s') ∧
    R l' s'.
Proof.
  revert l s. induction calls as [|[t|r] calls IH]; intros l s HR Hnodup.
  - by exists [], l, s.
  - change (submitted (Submit t :: calls)) with (t :: submitted calls) in *.
    rewrite fmap_app, fmap_cons in Hnodup.
    destruct (sim_add l s t HR) as (s1 & Hadd & HR1).
    { apply NoDup_app in Hnodup as (_ & Hdisj & _).
      intros Hin. apply (Hdisj _ Hin). left. }
    destruct (IH (l ++ [t]) s1 HR1) as (trace & l' & s' & Hrun1 & Hrun2 & HR').
    { rewrite <- (assoc (++)), fmap_app. done. }
    exists trace, l', s'. simpl. rewrite Hadd. done.
  - change (submitted (Withdraw r :: calls)) with (submitted calls) in *.
    destruct (sim_get l s r HR) as (res & l1 & s1 & Hget1 & Hget2 & HR1).
    { rewrite fmap_app in Hnodup. by apply NoDup_app in Hnodup as (? & _). }
    destruct (IH l1 s1 HR1) as (trace & l' & s' & Hrun1 & Hrun2 & HR').
    { apply get_task_list_held in Hget1. destruct res as [x|]; [|by subst].
      rewrite Hget1 in Hnodup. csimpl in Hnodup.
      by apply NoDup_cons in Hnodup as [_ ?]. }
    exists (res :: trace), l', s'. simpl.
    rewrite Hget2. simpl. rewrite Hrun2. simpl.
    rewrite Hget1. simpl. rewrite Hrun1. done.
Qed.

Hypothesis sim_init : R [] (init Q).

Lemma selection_correct_of_simulation (ts : list Task) (avail : Resources) :
  NoDup (id <$> ts) → selection_correct Q ts avail.
Proof.
  intros Hnodup.
  destruct (run_simulation (Submit <$> ts) [] (init Q) sim_init)
    as (trace & l & s & Hrun1 & Hrun2 & HR).
  { by rewrite submitted_Submit. }
  rewrite run_list_submits in Hrun1. injection Hrun1 as <- <-.
  destruct (sim_get _ s avail HR Hnodup) as (res & l' & s' & Hget1 & Hget2 & _).
  exists s, res, s'. split; [done|]. split; [done|]. simpl in Hget1.
  destruct (get_task_list_spec ts avail)
    as [[Hnone Hget]|(x & l1 & l2 & Hsel & Hget)];
    rewrite Hget in Hget1; injection Hget1 as <- <-; [done|].
  destruct (selects_position _ _ _ _ _ Hsel) as (Hleast & Hpos & Hfirst).
  split; [by destruct Hsel as (_ & ? & _)|]. split; [done|].
  by exists (length l1).
Qed.
End simulation.

Lemma list_sim_add (l s : list Task) (t : Task) :
  l = s → id t ∉ id <$> l →
  ∃ s', TaskQueue_list.add_task s t = Ok s' ∧ l ++ [t] = s'.
Proof. intros -> _. by exists (s ++ [t]). Qed.

Lemma list_sim_get (l s : list Task) (r : Resources) :
  l = s → NoDup (id <$> l) →
  ∃ res l' s',
    TaskQueue_list.get_task l r = Ok (res, l') ∧
    TaskQueue_list.get_task s r = Ok (res, s') ∧
    l' = s'.
Proof.
  intros -> _.
  destruct (get_task_list_spec s r) as [[_ ->]|(x & l1 & l2 & _ & ->)];
    by eexists _, _, _.
Qed.

Lemma DL_sim_add (l : list Task) (m : gmap Z (list Task)) (t : Task) :
  DL_repr l m → id t ∉ id <$> l →
  ∃ m', TaskQueue_dict_of_lists.add_task m t = Ok m' ∧ DL_repr (l ++ [t]) m'.
Proof.
  intros Hrep _. eexists. split; [apply DL_add_task_eq|]. by apply DL_repr_add.
Qed.

Lemma DD_sim_add (l : list Task) (m : gmap Z (list (Z * Task))) (t : Task) :
  DD_repr l m → id t ∉ id <$> l →
  ∃ m', TaskQueue_dict_of_dicts.add_task m t = Ok m' ∧ DD_repr (l ++ [t]) m'.
Proof.
  intros Hrep Hfresh. eexists. split; [apply DD_add_task_eq|].
  by apply DD_repr_add.
Qed.

(** The three classes return the same tasks along any sequence of calls
    that submits distinct ids. *)
Lemma same_traces (calls : list call) :
  NoDup (id <$> submitted calls) →
  ∃ trace s1 s2 s3,
    run Q_list (init Q_list) calls = Ok (trace, s1) ∧
    run Q_dict_of_lists (init Q_dict_of_lists) calls = Ok (trace, s2) ∧
    run Q_dict_of_dicts (init Q_dict_of_dicts) calls = Ok (trace, s3).
Proof.
  intros Hnodup.
  destruct (run_simulation Q_dict_of_lists DL_repr DL_sim_add
              (λ l m r H _, DL_repr_get l m r H) calls [] ∅ DL_repr_init Hnodup)
    as (trace & l & m2 & Hrun1 & Hrun2 & _).
  destruct (run_simulation Q_dict_of_dicts DD_repr DD_sim_add DD_repr_get
              calls [] ∅ DD_repr_init Hnodup)
    as (trace' & l' & m3 & Hrun1' & Hrun3 & _).
  rewrite Hrun1 in Hrun1'. injection Hrun1' as <- <-.
  by exists trace, l, m2, m3.
Qed.

(** ** The three classes agree *)

(** C1. Fed the same sequence of [add_task] and [get_task] calls, with
    distinct ids submitted, the three classes return at each [get_task] a
    task of the same id, or all return [None]. *)
Theorem strategy_equivalence (calls : list call) :
  NoDup (id <$> submitted calls) →
  ∃ trace1 trace2 trace3 s1 s2 s3,
    run Q_list (init Q_list) calls = Ok (trace1, s1) ∧
    run Q_dict_of_lists (init Q_dict_of_lists) calls = Ok (trace2, s2) ∧
    run Q_dict_of_dicts (init Q_dict_of_dicts) calls = Ok (trace3, s3) ∧
    returned_ids trace1 = returned_ids trace2 ∧
    returned_ids trace2 = returned_ids trace3.
Proof.
  intros Hnodup.
  destruct (same_traces calls Hnodup) as (trace & s1 & s2 & s3 & H1 & H2 & H3).
  by exists trace, trace, trace, s1, s2, s3.
Qed.

Lemma strategy_equivalence_witness :
  NoDup (id <$> submitted (scenario_calls (ram_only 5))) ∧
  ∃ trace1 trace2 trace3 s1 s2 s3,
    run Q_list (init Q_list) (scenario_calls (ram_only 5)) = Ok (trace1, s1) ∧
    run Q_dict_of_lists (init Q_dict_of_lists) (scenario_calls (ram_only 5))
      = Ok (trace2, s2) ∧
    run Q_dict_of_dicts (init Q_dict_of_dicts) (scenario_calls (ram_only 5))
      = Ok (trace3, s3) ∧
    returned_ids trace1 = returned_ids trace2 ∧
    returned_ids trace2 = returned_ids trace3.
Proof.
  assert (NoDup (id <$> submitted (scenario_calls (ram_only 5)))) as Hnodup.
  { vm_compute. repeat (apply NoDup_cons; split; [not_held|]). apply NoDup_nil_2. }
  split; [exact Hnodup|].
  apply (strategy_equivalence (scenario_calls (ram_only 5)) Hnodup).
Defined.

(** ** Selection *)

(** C2. After any submissions of tasks with distinct ids to a fresh
    storage of any of the three classes, a [get_task] that returns a task
    returns one that fits, of the least priority value among the tasks that
    fit, and the earliest submitted among those of that priority. *)
Theorem selection_correctness (ts : list Task) (avail : Resources) :
  NoDup (id <$> ts) →
  selection_correct Q_list ts avail ∧
  selection_correct Q_dict_of_lists ts avail ∧
  selection_correct Q_dict_of_dicts ts avail.
Proof.
  intros Hnodup. split; [|split].
  - by apply (selection_correct_of_simulation Q_list eq list_sim_add list_sim_get).
  - by apply (selection_correct_of_simulation Q_dict_of_lists DL_repr DL_sim_add
                (λ l m r H _, DL_repr_get l m r H) DL_repr_init).
  - by apply (selection_correct_of_simulation Q_dict_of_dicts DD_repr DD_sim_add
                DD_repr_get DD_repr_init).
Qed.

Lemma selection_correctness_witness :
  let ts := [sample_task 1 2 (ram_only 5); sample_task 2 1 (ram_only 5);
             sample_task 3 2 (ram_only 5)] in
  NoDup (id <$> ts) ∧
  selection_correct Q_list ts (ram_only 5) ∧
  selection_correct Q_dict_of_lists ts (ram_only 5) ∧
  selection_correct Q_dict_of_dicts ts (ram_only 5).
Proof.
  intros ts.
  assert (NoDup (id <$> ts)) as Hnodup.
  { vm_compute. repeat (apply NoDup_cons; split; [not_held|]). apply NoDup_nil_2. }
  split; [exact Hnodup|].
  apply (selection_correctness ts (ram_only 5) Hnodup).
Defined.

(** ** The scenario *)

Lemma scenario_on_list (r : Resources) :
  run Q_list (init Q_list) (scenario_calls r) =
  Ok ([Some (sample_task 2 1 r); Some (sample_task 1 2 r);
       Some (sample_task 3 2 r); None], []).
Proof.
  assert (∀ i p, fits r (sample_task i p r) = true) as Hfit.
  { intros i p. apply Resources_le_refl. }
  unfold scenario_calls, run. simpl.
  rewrite (get_task_list_selects r _ (sample_task 2 1 r)
             [sample_task 1 2 r] [sample_task 3 2 r]).
  2:{ split; [done|]. split; [apply Hfit|]. split.
      - intros y ->%list_elem_of_singleton _. simpl. lia.
      - intros y ->%list_elem_of_singleton _. simpl. lia. }
  simpl.
  rewrite (get_task_list_selects r _ (sample_task 1 2 r)
             [] [sample_task 3 2 r]).
  2:{ split; [done|]. split; [apply Hfit|]. split.
      - intros y Hy. by apply elem_of_nil in Hy.
      - intros y ->%list_elem_of_singleton _. simpl. lia. }
  simpl.
  rewrite (get_task_list_selects r _ (sample_task 3 2 r) [] []).
  2:{ split; [done|]. split; [apply Hfit|].
      split; intros y Hy; by apply elem_of_nil in Hy. }
  reflexivity.
Qed.

(** C3. In each of the three classes, from an empty storage: after
    submitting the tasks (id 1, priority 2), (id 2, priority 1) and
    (id 3, priority 2), each of cost ram 5, four [get_task] calls with
    ram 5 available return the tasks of id 2, 1 and 3, then [None].  The
    other two components, [c] and [g], are the same in the costs and in
    the availability. *)
Theorem scenario_three_tasks (c g : Z) :
  let r := {| ram := 5; cpu_cores := c; gpu_count := g |} in
  let expected := [Some (sample_task 2 1 r); Some (sample_task 1 2 r);
                   Some (sample_task 3 2 r); None] in
  (∃ s, run Q_list (init Q_list) (scenario_calls r) = Ok (expected, s)) ∧
  (∃ s, run Q_dict_of_lists (init Q_dict_of_lists) (scenario_calls r)
        = Ok (expected, s)) ∧
  (∃ s, run Q_dict_of_dicts (init Q_dict_of_dicts) (scenario_calls r)
        = Ok (expected, s)) ∧
  returned_ids expected = [Some 2%Z; Some 1%Z; Some 3%Z; None].
Proof.
  intros r expected.
  destruct (same_traces (scenario_calls r))
    as (trace & s1 & s2 & s3 & H1 & H2 & H3).
  { vm_compute. repeat (apply NoDup_cons; split; [not_held|]). apply NoDup_nil_2. }
  rewrite scenario_on_list in H1. injection H1 as <- <-.
  split; [exists []; apply scenario_on_list|].
  split; [by exists s2|]. split; [by exists s3|].
  reflexivity.
Qed.

(** ** Empty buckets *)

(** Two storages of one class that are related by [E], a relation the two
    methods preserve while returning the same results, stay so along any
    sequence of calls. *)
Section congruence.
Context (Q : TaskQueue) (E : storage Q → storage Q → Prop).

Hypothesis add_E : ∀ s1 s2 t,
  E s1 s2 →
  ∃ s1' s2', add_task Q s1 t = Ok s1' ∧ add_task Q s2 t = Ok s2' ∧ E s1' s2'.

Hypothesis get_E : ∀ s1 s2 r,
  E s1 s2 →
  ∃ res s1' s2',
    get_task Q s1 r = Ok (res, s1') ∧ get_task Q s2 r = Ok (res, s2') ∧
    E s1' s2'.

Lemma run_congruence (calls : list call) (s1 s2 : storage Q) :
  E s1 s2 →
  ∃ trace s1' s2',
    run Q s1 calls = Ok (trace, s1') ∧ run Q s2 calls = Ok (trace, s2') ∧
    E s1' s2'.
Proof.
  revert s1 s2. induction calls as [|[t|r] calls IH]; intros s1 s2 HE.
  - by exists [], s1, s2.
  - destruct (add_E s1 s2 t HE) as (s1' & s2' & Ha1 & Ha2 & HE').
    destruct (IH s1' s2' HE') as (trace & s1'' & s2'' & Hr1 & Hr2 & HE'').
    exists trace, s1'', s2''. simpl. by rewrite Ha1, Ha2.
  - destruct (get_E s1 s2 r HE) as (res & s1' & s2' & Hg1 & Hg2 & HE').
    destruct (IH s1' s2' HE') as (trace & s1'' & s2'' & Hr1 & Hr2 & HE'').
    exists (res :: trace), s1'', s2''. simpl.
    rewrite Hg1, Hg2. simpl. by rewrite Hr1, Hr2.
Qed.
End congruence.

Section dict_of_lists_buckets.
Import TaskQueue_dict_of_lists.
Implicit Types m : gmap Z (list Task).

Lemma DL_same_buckets_insert m1 m2 (p : Z) (b : list Task) :
  same_buckets m1 m2 → same_buckets (<[p := b]> m1) (<[p := b]> m2).
Proof.
  intros Hsame q. rewrite !lookup_insert. case_decide; [done | apply Hsame].
Qed.

Lemma DL_add_same_buckets m1 m2 (t : Task) :
  same_buckets m1 m2 →
  ∃ m1' m2', add_task m1 t = Ok m1' ∧ add_task m2 t = Ok m2' ∧
    same_buckets m1' m2'.
Proof.
  intros Hsame. eexists _, _.
  split; [apply DL_add_task_eq|]. split; [apply DL_add_task_eq|].
  unfold bucket. rewrite (Hsame (priority t)).
  by apply DL_same_buckets_insert.
Qed.

Lemma DL_get_same_buckets m1 m2 (avail : Resources) :
  same_buckets m1 m2 →
  ∃ res m1' m2', get_task m1 avail = Ok (res, m1') ∧
    get_task m2 avail = Ok (res, m2') ∧ same_buckets m1' m2'.
Proof.
  intros Hsame.
  assert (∀ p, bucket m1 p = bucket m2 p) as Hb by exact Hsame.
  destruct (DL_get_task_cases m1 avail)
    as [[Hnone Hget]|(p & x & b' & _ & Hp & Hlt & Hrm & Hget)].
  - exists None, m1, m2. split; [done|]. split; [|done].
    destruct (DL_get_task_cases m2 avail)
      as [[_ Hget2]|(p & x & b' & _ & Hp & _)]; [done|].
    rewrite <- Hb, Hnone in Hp. done.
  - destruct (DL_get_task_hit m2 avail p x) as (b'' & Hrm2 & Hget2).
    { by rewrite <- Hb. }
    { intros q Hq. rewrite <- Hb. by apply Hlt. }
    rewrite <- Hb, Hrm in Hrm2. injection Hrm2 as <-.
    exists (Some x), (<[p := b']> m1), (<[p := b']> m2).
    split; [done|]. split; [done|]. by apply DL_same_buckets_insert.
Qed.

Lemma DL_get_task_keeps_keys m (avail : Resources) res m' (p : Z) :
  get_task m avail = Ok (res, m') → is_Some (m !! p) → is_Some (m' !! p).
Proof.
  destruct (DL_get_task_effect m avail) as (res' & m'' & -> & Hdom & _).
  intros [= <- <-]. apply Hdom.
Qed.

Lemma DL_get_task_last m (avail : Resources) res m' (p : Z) (x : Task) :
  get_task m avail = Ok (res, m') → m !! p = Some [x] →
  m' !! p = Some [x] ∨ (res = Some x ∧ m' !! p = Some []).
Proof.
  intros Hget Hmp.
  destruct (DL_get_task_cases m avail)
    as [[_ Hget']|(p' & x' & b' & _ & Hp & _ & Hrm & Hget')];
    rewrite Hget' in Hget; injection Hget as <- <-; [by left|].
  destruct (decide (p' = p)) as [->|Hne].
  - right. unfold bucket in Hp, Hrm. rewrite Hmp in Hp, Hrm. simpl in Hp, Hrm.
    destruct (fits avail x); [|done]. injection Hp as <-.
    rewrite decide_True in Hrm by done. injection Hrm as <-.
    by rewrite lookup_insert_eq.
  - left. by rewrite lookup_insert_ne.
Qed.
End dict_of_lists_buckets.

Section dict_of_dicts_buckets.
Import TaskQueue_dict_of_dicts.
Implicit Types m : gmap Z (list (Z * Task)).

Lemma DD_same_buckets_insert m1 m2 (p : Z) (b : list (Z * Task)) :
  same_buckets m1 m2 → same_buckets (<[p := b]> m1) (<[p := b]> m2).
Proof.
  intros Hsame q. rewrite !lookup_insert. case_decide; [done | apply Hsame].
Qed.

Lemma DD_add_same_buckets m1 m2 (t : Task) :
  same_buckets m1 m2 →
  ∃ m1' m2', add_task m1 t = Ok m1' ∧ add_task m2 t = Ok m2' ∧
    same_buckets m1' m2'.
Proof.
  intros Hsame. eexists _, _.
  split; [apply DD_add_task_eq|]. split; [apply DD_add_task_eq|].
  unfold bucket. rewrite (Hsame (priority t)).
  by apply DD_same_buckets_insert.
Qed.

Lemma DD_get_same_buckets m1 m2 (avail : Resources) :
  same_buckets m1 m2 →
  ∃ res m1' m2', get_task m1 avail = Ok (res, m1') ∧
    get_task m2 avail = Ok (res, m2') ∧ same_buckets m1' m2'.
Proof.
  intros Hsame.
  assert (∀ p, bucket m1 p = bucket m2 p) as Hb by exact Hsame.
  destruct (DD_get_task_cases m1 avail)
    as [[Hnone Hget]|(p & i & x & b' & _ & Hp & Hlt & Hdel & Hget)].
  - exists None, m1, m2. split; [done|]. split; [|done].
    destruct (DD_get_task_cases m2 avail)
      as [[_ Hget2]|(p & i & x & b' & _ & Hp & _)]; [done|].
    rewrite <- Hb, Hnone in Hp. done.
  - destruct (DD_get_task_hit m2 avail p i x) as (b'' & Hdel2 & Hget2).
    { by rewrite <- Hb. }
    { intros q Hq. rewrite <- Hb. by apply Hlt. }
    rewrite <- Hb, Hdel in Hdel2. injection Hdel2 as <-.
    exists (Some x), (<[p := b']> m1), (<[p := b']> m2).
    split; [done|]. split; [done|]. by apply DD_same_buckets_insert.
Qed.

Lemma DD_get_task_keeps_keys m (avail : Resources) res m' (p : Z) :
  get_task m avail = Ok (res, m') → is_Some (m !! p) → is_Some (m' !! p).
Proof.
  destruct (DD_get_task_cases m avail)
    as [[_ ->]|(p' & i & x & b' & _ & _ & _ & _ & ->)]; intros [= <- <-]; [done|].
  intros Hp. rewrite lookup_insert. by case_decide.
Qed.

Lemma DD_get_task_last m (avail : Resources) res m' (p i : Z) (x : Task) :
  get_task m avail = Ok (res, m') → m !! p = Some [(i, x)] →
  m' !! p = Some [(i, x)] ∨ (res = Some x ∧ m' !! p = Some []).
Proof.
  intros Hget Hmp.
  destruct (DD_get_task_cases m avail)
    as [[_ Hget']|(p' & i' & x' & b' & _ & Hp & _ & Hdel & Hget')];
    rewrite Hget' in Hget; injection Hget as <- <-; [by left|].
  destruct (decide (p' = p)) as [->|Hne].
  - right. unfold bucket in Hp, Hdel. rewrite Hmp in Hp, Hdel.
    simpl in Hp, Hdel.
    destruct (fits avail x); [|done]. injection Hp as <- <-.
    rewrite decide_True in Hdel by done. injection Hdel as <-.
    by rewrite lookup_insert_eq.
  - left. by rewrite lookup_insert_ne.
Qed.
End dict_of_dicts_buckets.

(** When [get_task] returns a task that was alone in the bucket of its
    priority, that bucket is left in the dict, empty. *)
Lemma DL_get_task_empties (m m' : gmap Z (list Task)) (avail : Resources)
    (x : Task) :
  DL_by_priority m →
  TaskQueue_dict_of_lists.get_task m avail = Ok (Some x, m') →
  m !! priority x = Some [x] →
  m' !! priority x = Some [].
Proof.
  intros Hinv Hget Hmp.
  destruct (DL_get_task_cases m avail)
    as [[_ Hget']|(p & x' & b' & _ & Hp & _ & Hrm & Hget')];
    rewrite Hget' in Hget; [done|].
  injection Hget as -> <-.
  destruct (first_fit_remove _ _ _ Hp) as (b1 & b2 & Hb & _).
  assert (priority x = p) as <-.
  { apply Hinv. rewrite Hb, elem_of_app. right. left. }
  unfold TaskQueue_dict_of_lists.bucket in Hrm. rewrite Hmp in Hrm.
  simpl in Hrm. rewrite decide_True in Hrm by done. injection Hrm as <-.
  apply lookup_insert_eq.
Qed.

Lemma DD_get_task_empties (m m' : gmap Z (list (Z * Task))) (avail : Resources)
    (i : Z) (x : Task) :
  DD_by_priority m →
  TaskQueue_dict_of_dicts.get_task m avail = Ok (Some x, m') →
  m !! priority x = Some [(i, x)] →
  m' !! priority x = Some [].
Proof.
  intros Hinv Hget Hmp.
  destruct (DD_get_task_cases m avail)
    as [[_ Hget']|(p & j & x' & b' & _ & Hp & _ & Hdel & Hget')];
    rewrite Hget' in Hget; [done|].
  injection Hget as -> <-.
  destruct (first_fit_item_Some _ _ _ _ Hp) as (b1 & b2 & Hb & _).
  assert (priority x = p) as <-.
  { apply (Hinv p j). rewrite Hb, elem_of_app. right. left. }
  unfold TaskQueue_dict_of_dicts.bucket in Hp, Hdel. rewrite Hmp in Hp, Hdel.
  simpl in Hp, Hdel.
  destruct (fits avail x); [|done]. injection Hp as <-.
  rewrite decide_True in Hdel by done. injection Hdel as <-.
  apply lookup_insert_eq.
Qed.

(** C10. In the two dicts, [get_task] deletes no bucket, and when it
    returns the only task of the bucket of its priority that bucket stays
    in the dict, empty.  Two storages that differ only in which empty
    buckets they have return the same results along any sequence of calls
    and end up holding the same tasks. *)
Theorem empty_buckets_harmless :
  (∀ (m : gmap Z (list Task)) avail res m' p,
     TaskQueue_dict_of_lists.get_task m avail = Ok (res, m') →
     (is_Some (m !! p) → is_Some (m' !! p)) ∧
     (∀ x, m !! p = Some [x] →
           m' !! p = Some [x] ∨ (res = Some x ∧ m' !! p = Some [])) ∧
     (∀ x, DL_by_priority m → res = Some x →
           m !! priority x = Some [x] → m' !! priority x = Some [])) ∧
  (∀ (m : gmap Z (list (Z * Task))) avail res m' p,
     TaskQueue_dict_of_dicts.get_task m avail = Ok (res, m') →
     (is_Some (m !! p) → is_Some (m' !! p)) ∧
     (∀ i x, m !! p = Some [(i, x)] →
             m' !! p = Some [(i, x)] ∨ (res = Some x ∧ m' !! p = Some [])) ∧
     (∀ i x, DD_by_priority m → res = Some x →
             m !! priority x = Some [(i, x)] → m' !! priority x = Some [])) ∧
  (∀ (m1 m2 : gmap Z (list Task)) calls,
     same_buckets m1 m2 → same_behaviour Q_dict_of_lists m1 m2 calls) ∧
  (∀ (m1 m2 : gmap Z (list (Z * Task))) calls,
     same_buckets m1 m2 → same_behaviour Q_dict_of_dicts m1 m2 calls).
Proof.
  split; [|split; [|split]].
  - intros m avail res m' p Hget. split; [|split].
    + by apply (DL_get_task_keeps_keys m avail res).
    + intros x. by apply (DL_get_task_last m avail).
    + intros x Hinv -> Hmp. by apply (DL_get_task_empties m m' avail x).
  - intros m avail res m' p Hget. split; [|split].
    + by apply (DD_get_task_keeps_keys m avail res).
    + intros i x. by apply (DD_get_task_last m avail).
    + intros i x Hinv -> Hmp. by apply (DD_get_task_empties m m' avail i x).
  - intros m1 m2 calls Hsame.
    destruct (run_congruence Q_dict_of_lists same_buckets
                DL_add_same_buckets DL_get_same_buckets calls m1 m2 Hsame)
      as (trace & m1' & m2' & Hr1 & Hr2 & Hsame').
    exists trace, m1', m2'. split; [done|]. split; [done|].
    by apply join_values_ext.
  - intros m1 m2 calls Hsame.
    destruct (run_congruence Q_dict_of_dicts same_buckets
                DD_add_same_buckets DD_get_same_buckets calls m1 m2 Hsame)
      as (trace & m1' & m2' & Hr1 & Hr2 & Hsame').
    exists trace, m1', m2'. split; [done|]. split; [done|].
    simpl. unfold TaskQueue_dict_of_dicts.resident.
    by rewrite (join_values_ext m1' m2').
Qed.

Lemma empty_buckets_harmless_witness :
  let t := sample_task 1 1 (ram_only 5) in
  let m0 : gmap Z (list Task) := {[ 1%Z := [t] ]} in
  let d0 : gmap Z (list (Z * Task)) := {[ 1%Z := [(1%Z, t)] ]} in
  let m : gmap Z (list Task) := {[ 1%Z := [] ]} in
  let d : gmap Z (list (Z * Task)) := {[ 1%Z := [] ]} in
  (DL_by_priority m0 ∧
   TaskQueue_dict_of_lists.get_task m0 (ram_only 5) = Ok (Some t, m) ∧
   m !! priority t = Some []) ∧
  (DD_by_priority d0 ∧
   TaskQueue_dict_of_dicts.get_task d0 (ram_only 5) = Ok (Some t, d) ∧
   d !! priority t = Some []) ∧
  same_behaviour Q_dict_of_lists m ∅ (scenario_calls (ram_only 5)) ∧
  same_behaviour Q_dict_of_dicts d ∅ (scenario_calls (ram_only 5)).
Proof.
  intros t m0 d0 m d.
  destruct empty_buckets_harmless as (Hdl & Hdd & Hsame_dl & Hsame_dd).
  assert (DL_by_priority m0) as Hinv_dl.
  { intros p y. unfold TaskQueue_dict_of_lists.bucket, m0.
    destruct (decide (p = 1%Z)) as [->|Hne].
    - rewrite lookup_singleton_eq. simpl.
      intros Hy. apply list_elem_of_singleton in Hy. by subst y.
    - rewrite lookup_singleton_ne by done. simpl.
      intros Hy. by apply elem_of_nil in Hy. }
  assert (DD_by_priority d0) as Hinv_dd.
  { intros p i y. unfold TaskQueue_dict_of_dicts.bucket, d0.
    destruct (decide (p = 1%Z)) as [->|Hne].
    - rewrite lookup_singleton_eq. simpl.
      intros Hy. apply list_elem_of_singleton in Hy. by injection Hy as _ ->.
    - rewrite lookup_singleton_ne by done. simpl.
      intros Hy. by apply elem_of_nil in Hy. }
  split; [|split; [|split]].
  - split; [exact Hinv_dl|]. split; [reflexivity|].
    destruct (Hdl m0 (ram_only 5) (Some t) m 1%Z) as (_ & _ & Hempty);
      [reflexivity|].
    apply (Hempty t); [exact Hinv_dl | reflexivity | reflexivity].
  - split; [exact Hinv_dd|]. split; [reflexivity|].
    destruct (Hdd d0 (ram_only 5) (Some t) d 1%Z) as (_ & _ & Hempty);
      [reflexivity|].
    apply (Hempty 1%Z t); [exact Hinv_dd | reflexivity | reflexivity].
  - apply (Hsame_dl m ∅). intros p. rewrite lookup_empty. unfold m.
    destruct (decide (p = 1%Z)) as [->|Hne].
    + by rewrite lookup_singleton_eq.
    + by rewrite lookup_singleton_ne.
  - apply (Hsame_dd d ∅). intros p. rewrite lookup_empty. unfold d.
    destruct (decide (p = 1%Z)) as [->|Hne].
    + by rewrite lookup_singleton_eq.
    + by rewrite lookup_singleton_ne.
Defined.


(** * Further properties of the code *)

(** ** What [get_task] finds *)

(** X1. In each of the three classes and on any storage, [get_task]
    returns without raising; a task it returns is one of the tasks held
    and fits the available resources; it returns [None] only when no task
    held fits. *)
Theorem get_task_work_conserving :
  work_conserving Q_list ∧
  work_conserving Q_dict_of_lists ∧
  work_conserving Q_dict_of_dicts.
Proof.
  split; [|split]; intros s avail; simpl.
  - destruct (get_task_list_spec s avail)
      as [[Hnone ->]|(x & l1 & l2 & (-> & Hx & _) & ->)].
    + by exists None, s.
    + exists (Some x), (l1 ++ l2). split; [done|]. split; [|done].
      apply elem_of_app. right. left.
  - destruct (DL_get_task_effect s avail) as (res & m' & -> & _ & Hres).
    exists res, m'. split; [done|]. destruct res as [x|].
    + destruct Hres as [Hx Hperm]. split; [|done]. rewrite Hperm. left.
    + by destruct Hres as [_ Hnone].
  - destruct (DD_get_task_cases s avail)
      as [[Hnone ->]|(p & i & x & b' & _ & Hp & _ & _ & ->)].
    + exists None, s. split; [done|].
      intros y (p & Hy)%DD_elem_of_resident.
      specialize (Hnone p). rewrite first_fit_item_None in Hnone. auto.
    + exists (Some x), (<[p := b']> s). split; [done|].
      destruct (first_fit_item_Some _ _ _ _ Hp) as (b1 & b2 & Hb & Hx & _).
      split; [|done]. apply DD_elem_of_resident. exists p.
      rewrite Hb, fmap_app, elem_of_app. right. left.
Qed.

(** ** The single list and the dict of lists, ids repeated or not *)

Lemma run_list_dict_of_lists (calls : list call) (l : list Task)
    (m : gmap Z (list Task)) :
  DL_repr l m →
  ∃ trace l' m',
    run Q_list l calls = Ok (trace, l') ∧
    run Q_dict_of_lists m calls = Ok (trace, m') ∧
    DL_repr l' m'.
Proof.
  revert l m. induction calls as [|[t|r] calls IH]; intros l m Hrep.
  - by exists [], l, m.
  - destruct (IH (l ++ [t]) _ (DL_repr_add l m t Hrep))
      as (trace & l' & m' & Hrun1 & Hrun2 & Hrep').
    exists trace, l', m'. simpl. rewrite DL_add_task_eq. done.
  - destruct (DL_repr_get l m r Hrep) as (res & l1 & m1 & Hget1 & Hget2 & Hrep1).
    destruct (IH l1 m1 Hrep1) as (trace & l' & m' & Hrun1 & Hrun2 & Hrep').
    exists (res :: trace), l', m'. simpl.
    rewrite Hget1, Hget2. simpl. rewrite Hrun1, Hrun2. done.
Qed.

(** X2. [TaskQueue_list] and [TaskQueue_dict_of_lists] return the same
    tasks, call by call, along every sequence of calls; ids may repeat. *)
Theorem list_and_dict_of_lists_agree (calls : list call) :
  ∃ trace s1 s2,
    run Q_list (init Q_list) calls = Ok (trace, s1) ∧
    run Q_dict_of_lists (init Q_dict_of_lists) calls = Ok (trace, s2).
Proof.
  destruct (run_list_dict_of_lists calls [] ∅ DL_repr_init)
    as (trace & l' & m' & Hrun1 & Hrun2 & _).
  by exists trace, l', m'.
Qed.

(** ** A repeated id in the dict of dicts *)

(** X3. When a task [t2] is submitted after a task [t1] of the same id and
    priority, and only [t1] fits the available resources, [get_task]
    returns [t1] from the single list and from the dict of lists, but
    [None] from the dict of dicts, where [t2] took the place of [t1]. *)
Theorem repeated_id_loses_task (t1 t2 : Task) (avail : Resources) :
  id t1 = id t2 → priority t1 = priority t2 →
  fits avail t1 = true → fits avail t2 = false →
  (∃ s, run Q_list (init Q_list) [Submit t1; Submit t2; Withdraw avail]
        = Ok ([Some t1], s)) ∧
  (∃ s, run Q_dict_of_lists (init Q_dict_of_lists)
          [Submit t1; Submit t2; Withdraw avail] = Ok ([Some t1], s)) ∧
  (∃ s, run Q_dict_of_dicts (init Q_dict_of_dicts)
          [Submit t1; Submit t2; Withdraw avail] = Ok ([None], s)).
Proof.
  intros Hid Hprio Hfit1 Hfit2.
  assert (run Q_list (init Q_list) [Submit t1; Submit t2; Withdraw avail]
          = Ok ([Some t1], [t2])) as Hlist.
  { simpl. rewrite (get_task_list_selects avail [t1; t2] t1 [] [t2]); [done|].
    split; [done|]. split; [done|]. split.
    - intros y Hy. by apply elem_of_nil in Hy.
    - intros y ->%list_elem_of_singleton Hy. congruence. }
  split; [by exists [t2]|]. split.
  - destruct (run_list_dict_of_lists [Submit t1; Submit t2; Withdraw avail]
                [] ∅ DL_repr_init) as (trace & s1 & s2 & H1 & H2 & _).
    assert (Ok (trace, s1) = Ok ([Some t1], [t2])) as Heq
      by (rewrite <- H1; exact Hlist).
    injection Heq as -> _. by exists s2.
  - assert (TaskQueue_dict_of_dicts.add_task ∅ t1
            = Ok {[ priority t1 := [(id t1, t1)] ]}) as Hadd1.
    { rewrite DD_add_task_eq. by rewrite insert_empty. }
    assert (TaskQueue_dict_of_dicts.add_task {[ priority t1 := [(id t1, t1)] ]} t2
            = Ok {[ priority t1 := [(id t1, t2)] ]}) as Hadd2.
    { rewrite DD_add_task_eq, <- Hprio, <- Hid.
      unfold TaskQueue_dict_of_dicts.bucket. rewrite lookup_singleton_eq. simpl.
      rewrite decide_True by done. by rewrite insert_singleton_eq. }
    simpl. unfold TaskQueue_dict_of_dicts.init. rewrite Hadd1. simpl.
    rewrite Hadd2. simpl.
    destruct (DD_get_task_cases {[ priority t1 := [(id t1, t2)] ]} avail)
      as [[_ ->]|(p & i & x & b' & _ & Hp & _)]; [by eexists|].
    unfold TaskQueue_dict_of_dicts.bucket in Hp.
    destruct (decide (p = priority t1)) as [->|Hne].
    + rewrite lookup_singleton_eq in Hp. simpl in Hp. by rewrite Hfit2 in Hp.
    + by rewrite lookup_singleton_ne in Hp.
Qed.

Lemma repeated_id_loses_task_witness :
  let t1 := sample_task 1 2 (ram_only 5) in
  let t2 := sample_task 1 2 (ram_only 7) in
  (∃ s, run Q_list (init Q_list) [Submit t1; Submit t2; Withdraw (ram_only 5)]
        = Ok ([Some t1], s)) ∧
  (∃ s, run Q_dict_of_lists (init Q_dict_of_lists)
          [Submit t1; Submit t2; Withdraw (ram_only 5)] = Ok ([Some t1], s)) ∧
  (∃ s, run Q_dict_of_dicts (init Q_dict_of_dicts)
          [Submit t1; Submit t2; Withdraw (ram_only 5)] = Ok ([None], s)).
Proof.
  intros t1 t2.
  apply (repeated_id_loses_task t1 t2 (ram_only 5)); reflexivity.
Defined.

(** ** The buckets of the two dicts *)

Lemma submitted_priorities_Submit (t : Task) (calls : list call) :
  submitted_priorities (Submit t :: calls) =
  {[ priority t ]} ∪ submitted_priorities calls.
Proof. done. Qed.

Lemma list_remove_elem (x y : Task) (l l' : list Task) :
  list_remove x l = Ok l' → y ∈ l' → y ∈ l.
Proof.
  revert l'. induction l as [|a l IH]; intros l' Hrm Hy; simpl in Hrm; [done|].
  case_decide.
  - injection Hrm as <-. by right.
  - destruct (list_remove x l) as [l''|e]; simpl in Hrm; [|done].
    injection Hrm as <-. apply elem_of_cons in Hy as [->|Hy]; [left|].
    right. by apply (IH l'').
Qed.

Lemma odict_setitem_elem {V} (k : Z) (v : V) (d : list (Z * V)) (e : Z * V) :
  e ∈ odict_setitem k v d → e = (k, v) ∨ e ∈ d.
Proof.
  induction d as [|[k' v'] d IH]; simpl.
  - intros ->%list_elem_of_singleton. by left.
  - case_decide.
    + intros [->|He]%elem_of_cons; [by left|]. right. by right.
    + intros [->|He]%elem_of_cons; [right; left|].
      destruct (IH He) as [->|Hd]; [by left|]. right. by right.
Qed.

Lemma odict_delitem_elem {V} (k : Z) (d d' : list (Z * V)) (e : Z * V) :
  odict_delitem k d = Ok d' → e ∈ d' → e ∈ d.
Proof.
  revert d'. induction d as [|[k' v'] d IH]; intros d' Hdel He; simpl in Hdel;
    [done|].
  case_decide.
  - injection Hdel as <-. by right.
  - destruct (odict_delitem k d) as [d''|err]; simpl in Hdel; [|done].
    injection Hdel as <-. apply elem_of_cons in He as [->|He]; [left|].
    right. by apply (IH d'').
Qed.

Section dict_of_lists_shape.
Import TaskQueue_dict_of_lists.
Implicit Types m : gmap Z (list Task).

Lemma DL_get_task_dom m (avail : Resources) res m' :
  get_task m avail = Ok (res, m') → dom m' = dom m.
Proof.
  destruct (DL_get_task_effect m avail) as (res' & m'' & -> & Hdom & _).
  intros [= <- <-]. apply set_eq. intros q. by rewrite !elem_of_dom.
Qed.

Lemma DL_run_dom (calls : list call) m :
  ∃ trace m', run Q_dict_of_lists m calls = Ok (trace, m') ∧
    dom m' = dom m ∪ submitted_priorities calls.
Proof.
  revert m. induction calls as [|[t|r] calls IH]; intros m.
  - exists [], m. split; [done|]. unfold submitted_priorities. simpl.
    by rewrite (right_id_L ∅ (∪)).
  - destruct (IH (<[priority t := bucket m (priority t) ++ [t]]> m))
      as (trace & m' & Hrun & Hdom).
    exists trace, m'. split.
    + simpl. by rewrite DL_add_task_eq.
    + rewrite Hdom, dom_insert_L, submitted_priorities_Submit.
      apply set_eq. intros q. rewrite !elem_of_union. tauto.
  - destruct (DL_get_task_effect m r) as (res & m1 & Hget & _).
    destruct (IH m1) as (trace & m' & Hrun & Hdom).
    exists (res :: trace), m'. split.
    + simpl. rewrite Hget. simpl. by rewrite Hrun.
    + by rewrite Hdom, (DL_get_task_dom m r res m1).
Qed.

Lemma DL_by_priority_add m (t : Task) :
  DL_by_priority m →
  DL_by_priority (<[priority t := bucket m (priority t) ++ [t]]> m).
Proof.
  intros Hinv p y. rewrite DL_bucket_insert. case_decide as Hp; [|apply Hinv].
  subst p. intros [Hy| ->%list_elem_of_singleton]%elem_of_app; [|done].
  by apply Hinv.
Qed.

Lemma DL_by_priority_get m (avail : Resources) res m' :
  DL_by_priority m → get_task m avail = Ok (res, m') → DL_by_priority m'.
Proof.
  intros Hinv Hget.
  destruct (DL_get_task_cases m avail)
    as [[_ Hget']|(p & x & b' & _ & _ & _ & Hrm & Hget')];
    rewrite Hget' in Hget; injection Hget as <- <-; [done|].
  intros q y. rewrite DL_bucket_insert. case_decide as Hq; [|apply Hinv].
  subst q. intros Hy. apply Hinv. by apply (list_remove_elem x y _ b').
Qed.

Lemma DL_run_by_priority (calls : list call) m trace m' :
  DL_by_priority m → run Q_dict_of_lists m calls = Ok (trace, m') →
  DL_by_priority m'.
Proof.
  revert m trace. induction calls as [|[t|r] calls IH]; intros m trace Hinv Hrun.
  - by injection Hrun as _ <-.
  - simpl in Hrun. rewrite DL_add_task_eq in Hrun. simpl in Hrun.
    eapply IH; [|exact Hrun]. by apply DL_by_priority_add.
  - simpl in Hrun.
    destruct (TaskQueue_dict_of_lists.get_task m r) as [[res m1]|e] eqn:Hget;
      simpl in Hrun; [|done].
    destruct (run Q_dict_of_lists m1 calls) as [[trace1 m2]|e] eqn:Hrun1;
      simpl in Hrun; [|done].
    injection Hrun as _ <-. eapply IH; [|exact Hrun1].
    by eapply DL_by_priority_get.
Qed.
End dict_of_lists_shape.

Section dict_of_dicts_shape.
Import TaskQueue_dict_of_dicts.
Implicit Types m : gmap Z (list (Z * Task)).

Lemma DD_get_task_total m (avail : Resources) :
  ∃ res m', get_task m avail = Ok (res, m') ∧ dom m' = dom m.
Proof.
  destruct (DD_get_task_cases m avail)
    as [[_ ->]|(p & i & x & b' & Hp & _ & _ & _ & ->)].
  - by exists None, m.
  - exists (Some x), (<[p := b']> m). split; [done|].
    rewrite dom_insert_L. apply elem_of_dom in Hp.
    apply set_eq. intros q. rewrite elem_of_union, elem_of_singleton.
    split; [intros [->|?]; done | by right].
Qed.

Lemma DD_run_dom (calls : list call) m :
  ∃ trace m', run Q_dict_of_dicts m calls = Ok (trace, m') ∧
    dom m' = dom m ∪ submitted_priorities calls.
Proof.
  revert m. induction calls as [|[t|r] calls IH]; intros m.
  - exists [], m. split; [done|]. unfold submitted_priorities. simpl.
    by rewrite (right_id_L ∅ (∪)).
  - destruct (IH (<[priority t := odict_setitem (id t) t (bucket m (priority t))]> m))
      as (trace & m' & Hrun & Hdom).
    exists trace, m'. split.
    + simpl. by rewrite DD_add_task_eq.
    + rewrite Hdom, dom_insert_L, submitted_priorities_Submit.
      apply set_eq. intros q. rewrite !elem_of_union. tauto.
  - destruct (DD_get_task_total m r) as (res & m1 & Hget & Hdom1).
    destruct (IH m1) as (trace & m' & Hrun & Hdom).
    exists (res :: trace), m'. split.
    + simpl. rewrite Hget. simpl. by rewrite Hrun.
    + by rewrite Hdom, Hdom1.
Qed.

Lemma DD_by_priority_add m (t : Task) :
  DD_by_priority m →
  DD_by_priority
    (<[priority t := odict_setitem (id t) t (bucket m (priority t))]> m).
Proof.
  intros Hinv p i y. rewrite DD_bucket_insert. case_decide as Hp; [|apply Hinv].
  subst p. intros [[= -> ->]|Hy]%odict_setitem_elem; [done|].
  by apply (Hinv _ i).
Qed.

Lemma DD_by_priority_get m (avail : Resources) res m' :
  DD_by_priority m → get_task m avail = Ok (res, m') → DD_by_priority m'.
Proof.
  intros Hinv Hget.
  destruct (DD_get_task_cases m avail)
    as [[_ Hget']|(p & j & x & b' & _ & _ & _ & Hdel & Hget')];
    rewrite Hget' in Hget; injection Hget as <- <-; [done|].
  intros q i y. rewrite DD_bucket_insert. case_decide as Hq; [|apply Hinv].
  subst q. intros Hy. apply (Hinv _ i).
  by apply (odict_delitem_elem j _ b').
Qed.

Lemma DD_run_by_priority (calls : list call) m trace m' :
  DD_by_priority m → run Q_dict_of_dicts m calls = Ok (trace, m') →
  DD_by_priority m'.
Proof.
  revert m trace. induction calls as [|[t|r] calls IH]; intros m trace Hinv Hrun.
  - by injection Hrun as _ <-.
  - simpl in Hrun. rewrite DD_add_task_eq in Hrun. simpl in Hrun.
    eapply IH; [|exact Hrun]. by apply DD_by_priority_add.
  - simpl in Hrun.
    destruct (TaskQueue_dict_of_dicts.get_task m r) as [[res m1]|e] eqn:Hget;
      simpl in Hrun; [|done].
    destruct (run Q_dict_of_dicts m1 calls) as [[trace1 m2]|e] eqn:Hrun1;
      simpl in Hrun; [|done].
    injection Hrun as _ <-. eapply IH; [|exact Hrun1].
    by eapply DD_by_priority_get.
Qed.
End dict_of_dicts_shape.

(** X4. In the two dicts every sequence of calls on a fresh storage runs
    without raising, ids repeated or not, and the keys of the dict are then
    exactly the priorities of the tasks submitted so far: [add_task]
    creates the bucket of the task's priority when it is missing, and
    [get_task] neither creates nor deletes a bucket. *)
Theorem bucket_keys_are_submitted_priorities (calls : list call) :
  (∃ trace (m : gmap Z (list Task)),
     run Q_dict_of_lists (init Q_dict_of_lists) calls = Ok (trace, m) ∧
     dom m = submitted_priorities calls) ∧
  (∃ trace (m : gmap Z (list (Z * Task))),
     run Q_dict_of_dicts (init Q_dict_of_dicts) calls = Ok (trace, m) ∧
     dom m = submitted_priorities calls).
Proof.
  split.
  - destruct (DL_run_dom calls ∅) as (trace & m & Hrun & Hdom).
    exists trace, m. split; [done|].
    by rewrite Hdom, dom_empty_L, (left_id_L ∅ (∪)).
  - destruct (DD_run_dom calls ∅) as (trace & m & Hrun & Hdom).
    exists trace, m. split; [done|].
    by rewrite Hdom, dom_empty_L, (left_id_L ∅ (∪)).
Qed.

(** X5. After any sequence of calls on a fresh storage, every task in a
    bucket of the dict of lists has the priority the bucket is keyed by;
    in the dict of dicts it has that priority too, sits under its own id,
    and no bucket has an id twice. *)
Theorem buckets_hold_their_priority (calls : list call) :
  (∃ trace (m : gmap Z (list Task)),
     run Q_dict_of_lists (init Q_dict_of_lists) calls = Ok (trace, m) ∧
     DL_by_priority m) ∧
  (∃ trace (m : gmap Z (list (Z * Task))),
     run Q_dict_of_dicts (init Q_dict_of_dicts) calls = Ok (trace, m) ∧
     DD_by_priority m ∧ DD_wf m).
Proof.
  split.
  - destruct (DL_run_dom calls ∅) as (trace & m & Hrun & _).
    exists trace, m. split; [done|].
    eapply DL_run_by_priority; [|exact Hrun].
    intros p t Hin. by apply elem_of_nil in Hin.
  - destruct (DD_run_dom calls ∅) as (trace & m & Hrun & _).
    exists trace, m. split; [done|]. split.
    + eapply DD_run_by_priority; [|exact Hrun].
      intros p i t Hin. by apply elem_of_nil in Hin.
    + eapply DD_wf_run; [|exact Hrun]. apply DD_wf_empty.
Qed.

(** ** Nothing is lost *)

Lemma list_add_ok (s : list Task) (t : Task) :
  True → id t ∉ id <$> resident Q_list s →
  ∃ s', add_task Q_list s t = Ok s' ∧ True ∧
    resident Q_list s' ≡ₚ resident Q_list s ++ [t].
Proof. intros _ _. by exists (s ++ [t]). Qed.

Lemma list_get_ok (s : list Task) (r : Resources) :
  True →
  ∃ res s', get_task Q_list s r = Ok (res, s') ∧ True ∧
    match res with
    | None => resident Q_list s' ≡ₚ resident Q_list s
    | Some x => resident Q_list s ≡ₚ x :: resident Q_list s'
    end.
Proof.
  intros _. simpl.
  destruct (get_task_list_spec s r) as [[_ ->]|(x & l1 & l2 & (-> & _) & ->)].
  - by exists None, s.
  - exists (Some x), (l1 ++ l2). split; [done|]. split; [done|].
    unfold TaskQueue_list.resident. by rewrite Permutation_middle.
Qed.

Lemma DL_add_ok (m : gmap Z (list Task)) (t : Task) :
  True → id t ∉ id <$> resident Q_dict_of_lists m →
  ∃ m', add_task Q_dict_of_lists m t = Ok m' ∧ True ∧
    resident Q_dict_of_lists m' ≡ₚ resident Q_dict_of_lists m ++ [t].
Proof.
  intros _ _. eexists. split; [apply DL_add_task_eq|].
  split; [done|]. apply DL_resident_add.
Qed.

Lemma DL_get_ok (m : gmap Z (list Task)) (r : Resources) :
  True →
  ∃ res m', get_task Q_dict_of_lists m r = Ok (res, m') ∧ True ∧
    match res with
    | None => resident Q_dict_of_lists m' ≡ₚ resident Q_dict_of_lists m
    | Some x => resident Q_dict_of_lists m ≡ₚ x :: resident Q_dict_of_lists m'
    end.
Proof.
  intros _. simpl.
  destruct (DL_get_task_effect m r) as (res & m' & Hget & _ & Hres).
  exists res, m'. split; [done|]. split; [done|].
  destruct res; [by destruct Hres | by destruct Hres as [-> _]].
Qed.

Lemma DD_add_ok (m : gmap Z (list (Z * Task))) (t : Task) :
  DD_wf m → id t ∉ id <$> resident Q_dict_of_dicts m →
  ∃ m', add_task Q_dict_of_dicts m t = Ok m' ∧ DD_wf m' ∧
    resident Q_dict_of_dicts m' ≡ₚ resident Q_dict_of_dicts m ++ [t].
Proof.
  intros Hwf Hfresh. eexists. split; [apply DD_add_task_eq|].
  split; [by apply DD_wf_add|].
  rewrite odict_setitem_fresh; [apply DD_resident_append|].
  intros Hk. apply Hfresh. by apply (DD_key_resident m (priority t)).
Qed.

Lemma DD_get_ok (m : gmap Z (list (Z * Task))) (r : Resources) :
  DD_wf m →
  ∃ res m', get_task Q_dict_of_dicts m r = Ok (res, m') ∧ DD_wf m' ∧
    match res with
    | None => resident Q_dict_of_dicts m' ≡ₚ resident Q_dict_of_dicts m
    | Some x => resident Q_dict_of_dicts m ≡ₚ x :: resident Q_dict_of_dicts m'
    end.
Proof.
  intros Hwf. simpl.
  destruct (DD_get_task_effect m r Hwf) as (res & m' & Hget & Hwf' & _ & Hres).
  exists res, m'. split; [done|]. split; [done|].
  destruct res; [by destruct Hres | by destruct Hres as [-> _]].
Qed.

Lemma NoDup_from_init (Q : TaskQueue) (calls : list call) :
  resident Q (init Q) = [] →
  NoDup (id <$> submitted calls) →
  NoDup (id <$> resident Q (init Q) ++ submitted calls).
Proof. by intros ->. Qed.

Lemma conserves_of_conservation (Q : TaskQueue) (inv : storage Q → Prop)
    (calls : list call) trace s :
  resident Q (init Q) = [] →
  run Q (init Q) calls = Ok (trace, s) →
  resident Q (init Q) ++ submitted calls ≡ₚ returned trace ++ resident Q s →
  conserves Q calls.
Proof.
  intros Hempty Hrun Hcons. rewrite Hempty in Hcons. simpl in Hcons.
  exists trace, s. split; [done|]. split; [done|].
  by rewrite Hcons, length_app.
Qed.

(** X6. Along any sequence of calls that submits distinct ids, in each of
    the three classes, the tasks submitted are exactly the tasks returned
    together with the tasks still held; so the number of tasks held is the
    number submitted less the number returned. *)
Theorem tasks_are_conserved (calls : list call) :
  NoDup (id <$> submitted calls) →
  conserves Q_list calls ∧
  conserves Q_dict_of_lists calls ∧
  conserves Q_dict_of_dicts calls.
Proof.
  intros Hnodup. split; [|split].
  - destruct (run_conservation Q_list (λ _, True) list_add_ok list_get_ok
                calls (init Q_list) I)
      as (trace & s & Hrun & _ & Hcons); [by apply NoDup_from_init|].
    by apply (conserves_of_conservation Q_list (λ _, True) calls trace s).
  - destruct (run_conservation Q_dict_of_lists (λ _, True) DL_add_ok DL_get_ok
                calls (init Q_dict_of_lists) I)
      as (trace & s & Hrun & _ & Hcons); [by apply NoDup_from_init|].
    by apply (conserves_of_conservation Q_dict_of_lists (λ _, True) calls trace s).
  - destruct (run_conservation Q_dict_of_dicts DD_wf DD_add_ok DD_get_ok
                calls (init Q_dict_of_dicts) DD_wf_empty)
      as (trace & s & Hrun & _ & Hcons); [by apply NoDup_from_init|].
    by apply (conserves_of_conservation Q_dict_of_dicts DD_wf calls trace s).
Qed.

Lemma tasks_are_conserved_witness :
  NoDup (id <$> submitted (scenario_calls (ram_only 5))) ∧
  conserves Q_list (scenario_calls (ram_only 5)) ∧
  conserves Q_dict_of_lists (scenario_calls (ram_only 5)) ∧
  conserves Q_dict_of_dicts (scenario_calls (ram_only 5)).
Proof.
  assert (NoDup (id <$> submitted (scenario_calls (ram_only 5)))) as Hnodup.
  { vm_compute. repeat (apply NoDup_cons; split; [not_held|]). apply NoDup_nil_2. }
  split; [exact Hnodup|].
  apply (tasks_are_conserved (scenario_calls (ram_only 5)) Hnodup).
Defined.

(** ** Repeated withdrawals *)

Section sorted_pick.
Context {A : Type} (key : A → Z).

Lemma filter_none (P : A → Prop) `{∀ x, Decision (P x)} (l : list A) :
  (∀ y, y ∈ l → ¬ P y) → filter P l = [].
Proof.
  induction l as [|a l IH]; intros Hnone; [done|].
  rewrite filter_cons, decide_False by (apply Hnone; left).
  apply IH. intros y Hy. apply Hnone. by right.
Qed.

(** Taking out the first item of least key takes the head off the sorted
    list and leaves the rest of it as it was. *)
Lemma sorted_pick (l1 l2 : list A) (x : A) :
  (∀ y, y ∈ l1 → (key x < key y)%Z) →
  (∀ y, y ∈ l2 → (key x ≤ key y)%Z) →
  sorted key (l1 ++ x :: l2) = x :: sorted key (l1 ++ l2).
Proof.
  intros Hl1 Hl2. symmetry. apply sorted_is_the_stable_sort.
  - constructor; [apply sorted_StronglySorted|].
    apply Forall_forall. intros y Hy. rewrite sorted_Permutation in Hy.
    apply elem_of_app in Hy as [Hy|Hy]; [|by apply Hl2].
    specialize (Hl1 y Hy). lia.
  - intros k. rewrite filter_cons, sorted_stable, !filter_app, filter_cons.
    case_decide as Hk; [|done].
    rewrite (filter_none _ l1); [done|].
    intros y Hy Hky. specialize (Hl1 y Hy). lia.
Qed.
End sorted_pick.

Lemma returned_Some_None (c : list Task) : returned ((Some <$> c) ++ [None]) = c.
Proof.
  unfold returned. rewrite omap_app. simpl. rewrite app_nil_r.
  induction c as [|x c IH]; [done|]. csimpl. by rewrite IH.
Qed.

Lemma submitted_replicate_Withdraw (n : nat) (r : Resources) :
  submitted (replicate n (Withdraw r)) = [].
Proof. induction n as [|n IH]; [done|]. exact IH. Qed.

(** The single list, asked [n] times where [n] tasks fit. *)
Lemma drain_list (avail : Resources) (n : nat) (l : list Task) :
  length (filter (λ t, fits avail t) l) = n →
  run Q_list l (replicate n (Withdraw avail)) =
  Ok (Some <$> sorted priority (filter (λ t, fits avail t) l),
      filter (λ t, ¬ fits avail t) l).
Proof.
  revert l. induction n as [|n IH]; intros l Hlen.
  - apply nil_length_inv in Hlen as Hnil. rewrite Hnil. simpl. f_equal. f_equal.
    symmetry. clear Hlen. induction l as [|a l IHl]; [done|].
    rewrite filter_cons in Hnil. case_decide as Ha; [done|].
    rewrite filter_cons, decide_True by done. f_equal. by apply IHl.
  - destruct (get_task_list_spec l avail)
      as [[Hnone _]|(x & l1 & l2 & (-> & Hx & Hl1 & Hl2) & Hget)].
    + rewrite (filter_none _ l) in Hlen; [done|].
      intros y Hy Hfit. rewrite (Hnone y Hy) in Hfit. done.
    + simpl. rewrite Hget. simpl.
      rewrite filter_app, filter_cons, decide_True in Hlen |- * by by rewrite Hx.
      rewrite IH.
      2:{ rewrite filter_app, length_app. rewrite length_app in Hlen.
          simpl in Hlen. lia. }
      simpl. rewrite sorted_pick.
      * csimpl. f_equal. f_equal; [by rewrite filter_app|].
        rewrite !filter_app, filter_cons, decide_False; [done|].
        rewrite Hx. by intros H.
      * intros y [Hfit Hy]%list_elem_of_filter. apply Hl1; [done|].
        by apply Is_true_true.
      * intros y [Hfit Hy]%list_elem_of_filter. apply Hl2; [done|].
        by apply Is_true_true.
Qed.

Lemma drain_list_from_fresh (ts : list Task) (avail : Resources) :
  run Q_list (init Q_list)
    ((Submit <$> ts) ++
     replicate (S (length (sorted priority (filter (λ t, fits avail t) ts))))
       (Withdraw avail))
  = Ok ((Some <$> sorted priority (filter (λ t, fits avail t) ts)) ++ [None],
        filter (λ t, ¬ fits avail t) ts).
Proof.
  rewrite replicate_S_end, (assoc (++)), run_app, run_app.
  rewrite run_list_submits. simpl.
  rewrite drain_list by by rewrite sorted_Permutation.
  simpl. rewrite get_task_list_none; [done|].
  intros y [Hfit _]%list_elem_of_filter. by destruct (fits avail y).
Qed.

Lemma drains_of_run (Q : TaskQueue) (ts : list Task) (avail : Resources)
    (s : storage Q) :
  run Q (init Q)
    ((Submit <$> ts) ++
     replicate (S (length (sorted priority (filter (λ t, fits avail t) ts))))
       (Withdraw avail))
  = Ok ((Some <$> sorted priority (filter (λ t, fits avail t) ts)) ++ [None], s) →
  ts ≡ₚ sorted priority (filter (λ t, fits avail t) ts) ++ resident Q s →
  drains_in_priority_order Q ts avail.
Proof.
  intros Hrun Hcons. exists s. split; [done|].
  rewrite sorted_Permutation in Hcons.
  rewrite <- (filter_app_complement (λ t, fits avail t) ts) in Hcons at 1.
  by apply Permutation_app_inv_l in Hcons.
Qed.

(** X7. After submitting tasks of distinct ids to a fresh storage of any
    of the three classes, calling [get_task] again and again with the same
    available resources returns the tasks that fit in order of priority
    value, tasks of one priority in submission order, each once, and then
    [None]; the tasks that do not fit are still held. *)
Theorem repeated_get_task_drains (ts : list Task) (avail : Resources) :
  NoDup (id <$> ts) →
  drains_in_priority_order Q_list ts avail ∧
  drains_in_priority_order Q_dict_of_lists ts avail ∧
  drains_in_priority_order Q_dict_of_dicts ts avail.
Proof.
  intros Hnodup.
  set (calls := (Submit <$> ts) ++
     replicate (S (length (sorted priority (filter (λ t, fits avail t) ts))))
       (Withdraw avail)).
  assert (submitted calls = ts) as Hsub.
  { unfold calls.
    by rewrite submitted_app, submitted_Submit, submitted_replicate_Withdraw,
      app_nil_r. }
  assert (NoDup (id <$> submitted calls)) as Hnodup' by by rewrite Hsub.
  destruct (same_traces calls Hnodup') as (trace & s1 & s2 & s3 & H1 & H2 & H3).
  pose proof (drain_list_from_fresh ts avail) as Hlist. fold calls in Hlist.
  rewrite Hlist in H1. injection H1 as <- <-.
  split; [|split].
  - apply (drains_of_run Q_list ts avail _ Hlist). simpl.
    unfold TaskQueue_list.resident.
    rewrite sorted_Permutation. symmetry. apply filter_app_complement.
  - apply (drains_of_run Q_dict_of_lists ts avail s2 H2).
    destruct (run_conservation Q_dict_of_lists (λ _, True) DL_add_ok DL_get_ok
                calls (init Q_dict_of_lists) I)
      as (trace & s & Hrun & _ & Hcons); [by apply NoDup_from_init|].
    rewrite H2 in Hrun. injection Hrun as <- <-.
    by rewrite Hsub, returned_Some_None in Hcons.
  - apply (drains_of_run Q_dict_of_dicts ts avail s3 H3).
    destruct (run_conservation Q_dict_of_dicts DD_wf DD_add_ok DD_get_ok
                calls (init Q_dict_of_dicts) DD_wf_empty)
      as (trace & s & Hrun & _ & Hcons); [by apply NoDup_from_init|].
    rewrite H3 in Hrun. injection Hrun as <- <-.
    by rewrite Hsub, returned_Some_None in Hcons.
Qed.

Lemma repeated_get_task_drains_witness :
  let ts := [sample_task 1 2 (ram_only 5); sample_task 2 1 (ram_only 500);
             sample_task 3 1 (ram_only 5)] in
  NoDup (id <$> ts) ∧
  drains_in_priority_order Q_list ts (ram_only 5) ∧
  drains_in_priority_order Q_dict_of_lists ts (ram_only 5) ∧
  drains_in_priority_order Q_dict_of_dicts ts (ram_only 5).
Proof.
  intros ts.
  assert (NoDup (id <$> ts)) as Hnodup.
  { vm_compute. repeat (apply NoDup_cons; split; [not_held|]). apply NoDup_nil_2. }
  split; [exact Hnodup|].
  apply (repeated_get_task_drains ts (ram_only 5) Hnodup).
Defined.

(** ** More resources *)

Lemma fits_mono (r r' : Resources) (t : Task) :
  Resources_le r r' = true → fits r t = true → fits r' t = true.
Proof. intros Hle Hfit. by apply (Resources_le_trans _ r). Qed.

Lemma get_task_list_mono (l : list Task) (r r' : Resources) :
  Resources_le r r' = true →
  ∃ res res' l1 l2,
    TaskQueue_list.get_task l r = Ok (res, l1) ∧
    TaskQueue_list.get_task l r' = Ok (res', l2) ∧
    ∀ x, res = Some x → ∃ x', res' = Some x' ∧ (priority x' ≤ priority x)%Z.
Proof.
  intros Hle.
  destruct (get_task_list_spec l r) as [[_ ->]|(x & l1 & l2 & Hsel & ->)].
  - destruct (get_task_list_spec l r') as [[_ ->]|(x' & l1' & l2' & _ & ->)];
      by eexists None, _, _, _.
  - destruct (get_task_list_spec l r')
      as [[Hnone _]|(x' & l1' & l2' & Hsel' & ->)].
    + destruct Hsel as (-> & Hx & _).
      pose proof (fits_mono r r' x Hle Hx) as Hx'.
      rewrite (Hnone x) in Hx'; [done|].
      apply elem_of_app. right. left.
    + exists (Some x), (Some x'), (l1 ++ l2), (l1' ++ l2').
      split; [done|]. split; [done|]. intros y [= <-]. exists x'. split; [done|].
      destruct (selects_position _ _ _ _ _ Hsel') as (Hleast & _).
      destruct Hsel as (-> & Hx & _).
      apply Hleast; [|by apply (fits_mono r r')].
      apply elem_of_app. right. left.
Qed.

Section simulation_mono.
Context (Q : TaskQueue) (R : list Task → storage Q → Prop).

Hypothesis sim_add : ∀ l s t,
  R l s → id t ∉ id <$> l →
  ∃ s', add_task Q s t = Ok s' ∧ R (l ++ [t]) s'.

Hypothesis sim_get : ∀ l s r,
  R l s → NoDup (id <$> l) →
  ∃ res l' s',
    TaskQueue_list.get_task l r = Ok (res, l') ∧
    get_task Q s r = Ok (res, s') ∧
    R l' s'.

Hypothesis sim_init : R [] (init Q).

Lemma more_is_no_worse_of_simulation (calls : list call) (r r' : Resources) :
  NoDup (id <$> submitted calls) → Resources_le r r' = true →
  more_is_no_worse Q calls r r'.
Proof.
  intros Hnodup Hle.
  destruct (run_simulation Q R sim_add sim_get calls [] (init Q) sim_init Hnodup)
    as (trace & l & s & Hrun1 & Hrun2 & HR).
  assert (NoDup (id <$> l)) as Hl.
  { destruct (run_conservation Q_list (λ _, True) list_add_ok list_get_ok
                calls (init Q_list) I)
      as (trace' & l' & Hrun & _ & Hcons); [by apply NoDup_from_init|].
    assert (Ok (trace', l') = Ok (trace, l)) as Heq
      by (rewrite <- Hrun; exact Hrun1).
    injection Heq as -> ->. simpl in Hcons. unfold TaskQueue_list.resident in Hcons.
    rewrite Hcons, fmap_app in Hnodup. by apply NoDup_app in Hnodup as (_ & _ & ?). }
  destruct (sim_get l s r HR Hl) as (res & l1 & s1 & Hg1 & Hg1' & _).
  destruct (sim_get l s r' HR Hl) as (res' & l2 & s2 & Hg2 & Hg2' & _).
  exists trace, s, res, res', s1, s2.
  split; [done|]. split; [done|]. split; [done|].
  destruct (get_task_list_mono l r r' Hle)
    as (res0 & res0' & l10 & l20 & Hg10 & Hg20 & Hmono).
  rewrite Hg1 in Hg10. rewrite Hg2 in Hg20.
  injection Hg10 as <- _. injection Hg20 as <- _. done.
Qed.
End simulation_mono.

(** X8. In the storage any sequence of calls with distinct ids leaves, in
    each of the three classes: if [get_task] returns a task for the
    resources [r], then for any resources [r'] with [r <= r'] it returns a
    task as well, of the same or a smaller priority value. *)
Theorem more_resources_no_worse (calls : list call) (r r' : Resources) :
  NoDup (id <$> submitted calls) → Resources_le r r' = true →
  more_is_no_worse Q_list calls r r' ∧
  more_is_no_worse Q_dict_of_lists calls r r' ∧
  more_is_no_worse Q_dict_of_dicts calls r r'.
Proof.
  intros Hnodup Hle. split; [|split].
  - by apply (more_is_no_worse_of_simulation Q_list eq list_sim_add list_sim_get).
  - by apply (more_is_no_worse_of_simulation Q_dict_of_lists DL_repr DL_sim_add
                (λ l m r H _, DL_repr_get l m r H) DL_repr_init).
  - by apply (more_is_no_worse_of_simulation Q_dict_of_dicts DD_repr DD_sim_add
                DD_repr_get DD_repr_init).
Qed.

Lemma more_resources_no_worse_witness :
  let calls := [Submit (sample_task 1 2 (ram_only 5));
                Submit (sample_task 2 1 (ram_only 7))] in
  NoDup (id <$> submitted calls) ∧
  more_is_no_worse Q_list calls (ram_only 5) (ram_only 7) ∧
  more_is_no_worse Q_dict_of_lists calls (ram_only 5) (ram_only 7) ∧
  more_is_no_worse Q_dict_of_dicts calls (ram_only 5) (ram_only 7).
Proof.
  intros calls.
  assert (NoDup (id <$> submitted calls)) as Hnodup.
  { vm_compute. repeat (apply NoDup_cons; split; [not_held|]). apply NoDup_nil_2. }
  split; [exact Hnodup|].
  apply (more_resources_no_worse calls (ram_only 5) (ram_only 7) Hnodup).
  reflexivity.
Defined.

(** ** The task generator *)

Section task_generator_facts.
Context {W : Type}.
Implicit Types spec : gmap string (W → Z * W).

(** X9. [get_resources] returns when the spec has the keys ram, cpu and
    gpu, whatever other keys it has, and raises [KeyError] when one of the
    three is missing. *)
Theorem get_resources_keys spec (w : W) :
  (has_resource_keys spec → ∃ r w', get_resources spec w = Ok (r, w')) ∧
  (¬ has_resource_keys spec → get_resources spec w = Raise KeyError).
Proof.
  unfold has_resource_keys, get_resources, call_key. split.
  - intros ([f1 ->] & [f2 ->] & [f3 ->]). simpl.
    destruct (f1 w) as [r w1]. simpl. destruct (f2 w1) as [c w2]. simpl.
    destruct (f3 w2) as [g w3]. simpl. by eexists _, _.
  - intros Hmiss.
    destruct (spec !! "ram") as [f1|]; simpl; [|done].
    destruct (f1 w) as [r w1]. simpl.
    destruct (spec !! "cpu") as [f2|]; simpl; [|done].
    destruct (f2 w1) as [c w2]. simpl.
    destruct (spec !! "gpu") as [f3|]; simpl; [|done].
    exfalso. apply Hmiss. by repeat split.
Qed.

Lemma get_resources_present spec (w : W) :
  has_resource_keys spec → ∃ r w', get_resources spec w = Ok (r, w').
Proof.
  unfold has_resource_keys, get_resources, call_key.
  intros ([f1 ->] & [f2 ->] & [f3 ->]). simpl.
  destruct (f1 w) as [r w1]. simpl. destruct (f2 w1) as [c w2]. simpl.
  destruct (f3 w2) as [g w3]. simpl. by eexists _, _.
Qed.

Lemma next_task_id spec (priorityfnc : W → Z * W) (genid : Z) (w : W) :
  has_resource_keys spec →
  ∃ t w', next_task spec priorityfnc (genid, w) = Ok (t, ((genid + 1)%Z, w')) ∧
    id t = genid.
Proof.
  intros Hkeys. unfold next_task. destruct (priorityfnc w) as [p w1].
  destruct (get_resources_present spec w1 Hkeys) as (r & w2 & ->). simpl.
  by eexists _, _.
Qed.

Lemma take_tasks_S spec (priorityfnc : W → Z * W) (n : nat) (st : Z * W) :
  take_tasks spec priorityfnc (S n) st =
  '(t, st) ← next_task spec priorityfnc st;
  '(ts, st) ← take_tasks spec priorityfnc n st;
  Ok (t :: ts, st).
Proof. done. Qed.

Lemma take_tasks_ids spec (priorityfnc : W → Z * W) (n : nat) (genid : Z) (w : W) :
  has_resource_keys spec →
  ∃ ts w',
    take_tasks spec priorityfnc n (genid, w)
      = Ok (ts, ((genid + Z.of_nat n)%Z, w')) ∧
    id <$> ts = seqZ genid (Z.of_nat n).
Proof.
  intros Hkeys. revert genid w. induction n as [|n IH]; intros genid w.
  - exists [], w. simpl. by rewrite Z.add_0_r.
  - destruct (next_task_id spec priorityfnc genid w Hkeys) as (t & w1 & Hnext & Hid).
    destruct (IH (genid + 1)%Z w1) as (ts & w2 & Htake & Hids).
    exists (t :: ts), w2. split.
    + rewrite take_tasks_S, Hnext. simpl. rewrite Htake. simpl.
      do 3 f_equal. lia.
    + rewrite fmap_cons, Hid, Hids, (seqZ_cons genid) by lia.
      do 2 f_equal. lia.
Qed.
End task_generator_facts.

Lemma get_resources_keys_witness :
  (∃ r w', get_resources (W := unit) small_resoure_spec () = Ok (r, w')) ∧
  get_resources (W := unit) ∅ () = Raise KeyError.
Proof.
  split.
  - apply (get_resources_keys (W := unit) small_resoure_spec ()).
    unfold has_resource_keys, small_resoure_spec.
    repeat split; eexists; reflexivity.
  - apply (get_resources_keys (W := unit) ∅ ()).
    intros ([f Hf] & _). rewrite lookup_empty in Hf. discriminate Hf.
Defined.

(** X10. Tasks drawn from a generator get the successive values of the
    shared counter as ids; a second generator, whatever its spec and
    priority function, goes on from where the first stopped.  So all the
    tasks drawn have distinct ids. *)
Theorem generated_ids_are_consecutive {W : Type}
    (spec1 spec2 : gmap string (W → Z * W)) (prio1 prio2 : W → Z * W)
    (n1 n2 : nat) (genid : Z) (w : W) :
  has_resource_keys spec1 → has_resource_keys spec2 →
  ∃ ts1 w1 ts2 w2,
    take_tasks spec1 prio1 n1 (genid, w)
      = Ok (ts1, ((genid + Z.of_nat n1)%Z, w1)) ∧
    take_tasks spec2 prio2 n2 ((genid + Z.of_nat n1)%Z, w1)
      = Ok (ts2, ((genid + Z.of_nat n1 + Z.of_nat n2)%Z, w2)) ∧
    id <$> (ts1 ++ ts2) = seqZ genid (Z.of_nat n1 + Z.of_nat n2) ∧
    NoDup (id <$> (ts1 ++ ts2)).
Proof.
  intros Hkeys1 Hkeys2.
  destruct (take_tasks_ids spec1 prio1 n1 genid w Hkeys1)
    as (ts1 & w1 & Htake1 & Hids1).
  destruct (take_tasks_ids spec2 prio2 n2 (genid + Z.of_nat n1)%Z w1 Hkeys2)
    as (ts2 & w2 & Htake2 & Hids2).
  exists ts1, w1, ts2, w2. split; [done|]. split; [done|].
  assert (id <$> (ts1 ++ ts2) = seqZ genid (Z.of_nat n1 + Z.of_nat n2)) as Hids.
  { rewrite fmap_app, Hids1, Hids2, seqZ_app by lia. done. }
  split; [done|]. rewrite Hids. apply NoDup_seqZ.
Qed.

Lemma generated_ids_are_consecutive_witness :
  ∃ ts1 w1 ts2 w2,
    take_tasks (W := unit) big_resoure_spec (const_fn 2) 2 (0%Z, ())
      = Ok (ts1, ((0 + Z.of_nat 2)%Z, w1)) ∧
    take_tasks (W := unit) small_resoure_spec (const_fn 2) 1 ((0 + Z.of_nat 2)%Z, w1)
      = Ok (ts2, ((0 + Z.of_nat 2 + Z.of_nat 1)%Z, w2)) ∧
    id <$> (ts1 ++ ts2) = seqZ 0 (Z.of_nat 2 + Z.of_nat 1) ∧
    NoDup (id <$> (ts1 ++ ts2)).
Proof.
  apply (generated_ids_are_consecutive (W := unit)
           big_resoure_spec small_resoure_spec (const_fn 2) (const_fn 2) 2 1 0 ()).
  - unfold has_resource_keys, big_resoure_spec.
    repeat split; eexists; reflexivity.
  - unfold has_resource_keys, small_resoure_spec.
    repeat split; eexists; reflexivity.
Defined.

(** ** The worst-case test *)

Section worst_case.
Context {W : Type}.

Lemma take_tasks_const (spec : gmap string (W → Z * W)) (res : Resources)
    (p : Z) (n : nat) (genid : Z) (w : W) :
  (∀ w, get_resources spec w = Ok (res, w)) →
  take_tasks spec (const_fn p) n (genid, w) =
  Ok ((λ i, sample_task i p res) <$> seqZ genid (Z.of_nat n),
      ((genid + Z.of_nat n)%Z, w)).
Proof.
  intros Hres. revert genid. induction n as [|n IH]; intros genid.
  - simpl. by rewrite Z.add_0_r.
  - rewrite take_tasks_S. unfold next_task at 1.
    change (const_fn p w) with (p, w).
    cbv beta iota zeta. rewrite Hres. simpl. rewrite IH. simpl.
    rewrite (seqZ_cons genid) by lia. rewrite fmap_cons.
    replace (Z.pred (Z.of_nat (S n))) with (Z.of_nat n) by lia.
    replace (Z.succ genid) with (genid + 1)%Z by lia.
    replace (genid + 1 + Z.of_nat n)%Z with (genid + Z.of_nat (S n))%Z by lia.
    done.
Qed.

Lemma take_resources_const (spec : gmap string (W → Z * W)) (res : Resources)
    (n : nat) (w : W) :
  (∀ w, get_resources spec w = Ok (res, w)) →
  take_resources spec n w = Ok (replicate n res, w).
Proof.
  intros Hres. induction n as [|n IH]; [done|].
  simpl. rewrite Hres. simpl. by rewrite IH.
Qed.

Lemma get_resources_big (w : W) :
  get_resources big_resoure_spec w = Ok (big_resources, w).
Proof. reflexivity. Qed.

Lemma get_resources_small (w : W) :
  get_resources small_resoure_spec w = Ok (small_resources, w).
Proof. reflexivity. Qed.

Lemma worst_case_setup_result (maxsize ntasks nattempts genid : Z) (w : W) :
  (0 ≤ ntasks ≤ maxsize)%Z →
  worst_case_setup maxsize ntasks nattempts (genid, w) =
  Ok (((λ i, sample_task i 2 big_resources) <$> seqZ genid ntasks) ++
        [sample_task (genid + ntasks) 2 small_resources],
      replicate (Z.to_nat (nattempts * 2)) small_resources,
      ((genid + ntasks + 1)%Z, w)).
Proof.
  intros Hn. unfold worst_case_setup, islice_tasks.
  rewrite decide_True by done.
  rewrite (take_tasks_const _ big_resources) by apply get_resources_big.
  rewrite Z2Nat.id by lia. simpl.
  rewrite (take_resources_const _ small_resources) by apply get_resources_small.
  simpl. unfold next_task. change (const_fn 2 w) with (2%Z, w).
  cbv beta iota zeta. by rewrite get_resources_small.
Qed.
End worst_case.

Lemma worst_case_ids (genid ntasks : Z) :
  (0 ≤ ntasks)%Z →
  id <$> (((λ i, sample_task i 2 big_resources) <$> seqZ genid ntasks) ++
          [sample_task (genid + ntasks) 2 small_resources])
  = seqZ genid (ntasks + 1).
Proof.
  intros Hn. rewrite fmap_app, <- list_fmap_compose, seqZ_app by lia.
  f_equal. apply list_fmap_id.
Qed.

Lemma worst_case_on_list (genid ntasks : Z) :
  attempt Q_list
    (((λ i, sample_task i 2 big_resources) <$> seqZ genid ntasks) ++
     [sample_task (genid + ntasks) 2 small_resources])
    small_resources
  = Ok ([Some (sample_task (genid + ntasks) 2 small_resources)],
        (λ i, sample_task i 2 big_resources) <$> seqZ genid ntasks).
Proof.
  unfold attempt. rewrite run_app, run_list_submits. simpl.
  rewrite (get_task_list_selects small_resources _
             (sample_task (genid + ntasks) 2 small_resources)
             ((λ i, sample_task i 2 big_resources) <$> seqZ genid ntasks) []).
  - simpl. by rewrite app_nil_r.
  - split; [done|]. split; [done|]. split.
    + intros y (i & -> & _)%list_elem_of_fmap Hfit. done.
    + intros y Hy. by apply elem_of_nil in Hy.
Qed.

(** X11. For [0 <= ntasks <= sys.maxsize], the worst-case test prepares
    the list of [ntasks] big tasks (ram 500, 10 cores, 10 gpus, priority 2)
    followed by one small task (ram 5, 1 core, 1 gpu, priority 2), with
    the consecutive ids from the counter on, and twice [nattempts]
    consumers, each with the small resources.  In an attempt with those
    resources, on each of the three classes, [get_task] returns the small
    task at the end of the list, never [None]. *)
Theorem worst_case_finds_last_task {W : Type} (maxsize ntasks nattempts genid : Z)
    (w : W) :
  (0 ≤ ntasks ≤ maxsize)%Z →
  let bigs := (λ i, sample_task i 2 big_resources) <$> seqZ genid ntasks in
  let last := sample_task (genid + ntasks) 2 small_resources in
  let tasklist := bigs ++ [last] in
  let consres_initial_list :=
    replicate (Z.to_nat (nattempts * 2)) small_resources in
  worst_case_setup maxsize ntasks nattempts (genid, w)
    = Ok (tasklist, consres_initial_list, ((genid + ntasks + 1)%Z, w)) ∧
  length bigs = Z.to_nat ntasks ∧
  id <$> tasklist = seqZ genid (ntasks + 1) ∧
  (∃ s, attempt Q_list tasklist small_resources = Ok ([Some last], s)) ∧
  (∃ s, attempt Q_dict_of_lists tasklist small_resources
        = Ok ([Some last], s)) ∧
  (∃ s, attempt Q_dict_of_dicts tasklist small_resources
        = Ok ([Some last], s)) ∧
  ∀ r, r ∈ consres_initial_list → r = small_resources.
Proof.
  intros Hn bigs last tasklist consres_initial_list.
  split; [by apply worst_case_setup_result|].
  split; [unfold bigs; by rewrite length_fmap, length_seqZ|].
  split; [apply worst_case_ids; lia|].
  pose proof (worst_case_on_list genid ntasks) as Hlist.
  destruct (same_traces ((Submit <$> tasklist) ++ [Withdraw small_resources]))
    as (trace & s1 & s2 & s3 & H1 & H2 & H3).
  { rewrite submitted_app, submitted_Submit. simpl. rewrite app_nil_r.
    unfold tasklist, bigs, last. rewrite worst_case_ids by lia.
    apply NoDup_seqZ. }
  unfold attempt in *.
  assert (Ok (trace, s1) = Ok ([Some last], bigs)) as Heq
    by (rewrite <- H1; exact Hlist).
  injection Heq as -> _.
  split; [by eexists|]. split; [by eexists|]. split; [by eexists|].
  intros r Hr. by apply elem_of_replicate_inv in Hr.
Qed.

Lemma worst_case_finds_last_task_witness :
  let bigs := (λ i, sample_task i 2 big_resources) <$> seqZ 0 3 in
  let last := sample_task (0 + 3) 2 small_resources in
  let tasklist := bigs ++ [last] in
  let consres_initial_list := replicate (Z.to_nat (2 * 2)) small_resources in
  worst_case_setup (W := unit) 9223372036854775807 3 2 (0%Z, ())
    = Ok (tasklist, consres_initial_list, ((0 + 3 + 1)%Z, ())) ∧
  length bigs = Z.to_nat 3 ∧
  id <$> tasklist = seqZ 0 (3 + 1) ∧
  (∃ s, attempt Q_list tasklist small_resources = Ok ([Some last], s)) ∧
  (∃ s, attempt Q_dict_of_lists tasklist small_resources
        = Ok ([Some last], s)) ∧
  (∃ s, attempt Q_dict_of_dicts tasklist small_resources
        = Ok ([Some last], s)) ∧
  ∀ r, r ∈ consres_initial_list → r = small_resources.
Proof.
  apply (worst_case_finds_last_task (W := unit) 9223372036854775807 3 2 0 ()).
  lia.
Defined.

(** ** The random test *)

Lemma take_resources_present {W : Type} (spec : gmap string (W → Z * W))
    (n : nat) (w : W) :
  has_resource_keys spec →
  ∃ rs w', take_resources spec n w = Ok (rs, w') ∧ length rs = n.
Proof.
  intros Hkeys. revert w. induction n as [|n IH]; intros w.
  - by exists [], w.
  - destruct (get_resources_present spec w Hkeys) as (r & w1 & Hr).
    destruct (IH w1) as (rs & w2 & Hrs & Hlen).
    exists (r :: rs), w2. simpl. rewrite Hr. simpl. rewrite Hrs. simpl.
    by rewrite Hlen.
Qed.

(** X12. For [0 <= ntasks <= sys.maxsize] and a spec with the keys ram,
    cpu and gpu, whatever numbers the random callables draw: the random
    test prepares [ntasks] tasks and twice [nattempts] consumers, and in an
    attempt with any resources the three classes return the same task, or
    all return [None]. *)
Theorem random_sample_classes_agree {W : Type} (maxsize : Z)
    (spec : gmap string (W → Z * W)) (priorityfnc : W → Z * W)
    (ntasks nattempts genid : Z) (w : W) :
  (0 ≤ ntasks ≤ maxsize)%Z → has_resource_keys spec →
  ∃ tasklist consres_initial_list st,
    random_sample_setup maxsize spec priorityfnc ntasks nattempts (genid, w)
      = Ok (tasklist, consres_initial_list, st) ∧
    length tasklist = Z.to_nat ntasks ∧
    length consres_initial_list = Z.to_nat (nattempts * 2) ∧
    ∀ r, ∃ res s1 s2 s3,
      attempt Q_list tasklist r = Ok ([res], s1) ∧
      attempt Q_dict_of_lists tasklist r = Ok ([res], s2) ∧
      attempt Q_dict_of_dicts tasklist r = Ok ([res], s3).
Proof.
  intros Hn Hkeys.
  destruct (take_tasks_ids spec priorityfnc (Z.to_nat ntasks) genid w Hkeys)
    as (ts & w1 & Htake & Hids).
  destruct (take_resources_present spec (Z.to_nat (nattempts * 2)) w1 Hkeys)
    as (rs & w2 & Hrs & Hlen).
  exists ts, rs, ((genid + Z.of_nat (Z.to_nat ntasks))%Z, w2).
  split; [|split; [|split; [done|]]].
  - unfold random_sample_setup, islice_tasks. rewrite decide_True by done.
    rewrite Htake. simpl. by rewrite Hrs.
  - rewrite <- (length_fmap id ts), Hids, length_seqZ. lia.
  - intros r.
    destruct (same_traces ((Submit <$> ts) ++ [Withdraw r]))
      as (trace & s1 & s2 & s3 & H1 & H2 & H3).
    { rewrite submitted_app, submitted_Submit. simpl. rewrite app_nil_r.
      rewrite Hids. apply NoDup_seqZ. }
    unfold attempt.
    assert (∃ res, trace = [res]) as [res ->].
    { rewrite run_app, run_list_submits in H1. simpl in H1.
      destruct (TaskQueue_list.get_task ts r) as [[res l]|e]; simpl in H1; [|done].
      injection H1 as <- _. by exists res. }
    by exists res, s1, s2, s3.
Qed.

Lemma random_sample_classes_agree_witness :
  ∃ tasklist consres_initial_list st,
    random_sample_setup (W := unit) 9223372036854775807 small_resoure_spec
      (const_fn 2) 3 2 (0%Z, ())
      = Ok (tasklist, consres_initial_list, st) ∧
    length tasklist = Z.to_nat 3 ∧
    length consres_initial_list = Z.to_nat (2 * 2) ∧
    ∀ r, ∃ res s1 s2 s3,
      attempt Q_list tasklist r = Ok ([res], s1) ∧
      attempt Q_dict_of_lists tasklist r = Ok ([res], s2) ∧
      attempt Q_dict_of_dicts tasklist r = Ok ([res], s3).
Proof.
  apply (random_sample_classes_agree (W := unit) 9223372036854775807
           small_resoure_spec (const_fn 2) 3 2 0 ()).
  - lia.
  - unfold has_resource_keys, small_resoure_spec.
    repeat split; eexists; reflexivity.
Defined.

(** ** The buckets after submissions *)

(** X13. After the tasks [ts] are submitted to a fresh storage, the bucket
    of each priority in the dict of lists lists the tasks of [ts] with that
    priority, in the order they were submitted.  With distinct ids, so do
    the values of the bucket in the dict of dicts, and its keys are their
    ids. *)
Theorem buckets_after_submissions (ts : list Task) :
  (∃ m : gmap Z (list Task),
     run Q_dict_of_lists (init Q_dict_of_lists) (Submit <$> ts) = Ok ([], m) ∧
     ∀ p, TaskQueue_dict_of_lists.bucket m p = filter (λ t, priority t = p) ts) ∧
  (NoDup (id <$> ts) →
   ∃ m : gmap Z (list (Z * Task)),
     run Q_dict_of_dicts (init Q_dict_of_dicts) (Submit <$> ts) = Ok ([], m) ∧
     ∀ p, (TaskQueue_dict_of_dicts.bucket m p).*2
            = filter (λ t, priority t = p) ts ∧
          (TaskQueue_dict_of_dicts.bucket m p).*1
            = id <$> filter (λ t, priority t = p) ts).
Proof.
  split.
  - destruct (run_list_dict_of_lists (Submit <$> ts) [] ∅ DL_repr_init)
      as (trace & l & m & Hrun1 & Hrun2 & Hrep).
    rewrite run_list_submits in Hrun1. injection Hrun1 as <- <-.
    by exists m.
  - intros Hnodup.
    destruct (run_simulation Q_dict_of_dicts DD_repr DD_sim_add DD_repr_get
                (Submit <$> ts) [] ∅ DD_repr_init)
      as (trace & l & m & Hrun1 & Hrun2 & Hrep).
    { by rewrite submitted_Submit. }
    rewrite run_list_submits in Hrun1. injection Hrun1 as <- <-.
    exists m. split; [done|]. intros p. rewrite (Hrep p), <- !list_fmap_compose.
    split; [apply list_fmap_id | done].
Qed.

Lemma buckets_after_submissions_witness :
  let ts := [sample_task 1 2 (ram_only 5); sample_task 2 1 (ram_only 5);
             sample_task 3 2 (ram_only 5)] in
  ∃ m : gmap Z (list (Z * Task)),
    run Q_dict_of_dicts (init Q_dict_of_dicts) (Submit <$> ts) = Ok ([], m) ∧
    ∀ p, (TaskQueue_dict_of_dicts.bucket m p).*2
           = filter (λ t, priority t = p) ts ∧
         (TaskQueue_dict_of_dicts.bucket m p).*1
           = id <$> filter (λ t, priority t = p) ts.
Proof.
  intros ts.
  destruct (buckets_after_submissions ts) as [_ Hdd].
  apply Hdd.
  vm_compute. repeat (apply NoDup_cons; split; [not_held|]). apply NoDup_nil_2.
Defined.
